(** * Smart Bookmark: the client-side view model of [bookmark-app.tsx]

    A shallow embedding of the [BookmarkApp] component: its state
    variables, the change-feed callback installed by [setupRealtime], the
    snapshot loader, the command handlers and the sorted projection.

    Conventions.
    - A JavaScript string is the list of its UTF-16 code units.
    - A React state setter is applied in call order; a functional updater
      [setBookmarks (current => ...)] is the function applied to the
      current list.
    - An [async] handler is cut at its [await]: the part before it issues
      the request, the part after it takes the gateway's answer.
    - Every call on the gateway and every write of the bookmark list is
      recorded, in program order, in a trace of [Op]s. *)

From Stdlib Require Import ZArith NArith Ascii String Sorted Permutation Lia.
From stdpp Require Import base option list gmap.

Local Open Scope N_scope.

(** ** Strings *)

Definition jsstring : Type := list N.

Definition lit (s : string) : jsstring :=
  (fun a => N_of_ascii a) <$> list_ascii_of_string s.

(** [String.prototype.startsWith] *)
Fixpoint startsWith (s prefix : jsstring) {struct prefix} : bool :=
  match prefix, s with
  | [], _ => true
  | _ :: _, [] => false
  | p :: prefix', c :: s' => if decide (c = p) then startsWith s' prefix' else false
  end.

(** ECMAScript WhiteSpace and LineTerminator code points, the characters
    [String.prototype.trim] strips. *)
Definition isWhiteSpace (c : N) : bool :=
  (c =? 0x09) || (c =? 0x0A) || (c =? 0x0B) || (c =? 0x0C) || (c =? 0x0D)
  || (c =? 0x20) || (c =? 0xA0) || (c =? 0x1680)
  || ((0x2000 <=? c) && (c <=? 0x200A))
  || (c =? 0x2028) || (c =? 0x2029) || (c =? 0x202F) || (c =? 0x205F)
  || (c =? 0x3000) || (c =? 0xFEFF).

Fixpoint trimStart (s : jsstring) : jsstring :=
  match s with
  | [] => []
  | c :: s' => if isWhiteSpace c then trimStart s' else s
  end.

Definition trimEnd (s : jsstring) : jsstring := rev (trimStart (rev s)).

Definition trim (s : jsstring) : jsstring := trimEnd (trimStart s).

(** Truthiness of a string: only the empty string is falsy. *)
Definition truthy (s : jsstring) : bool :=
  match s with [] => false | _ :: _ => true end.

(** ** Data model *)

Module Bookmark.
Record t : Type := mk
  { id : jsstring;
    url : jsstring;
    title : jsstring;
    created_at : jsstring }.

#[global] Instance eq_dec : EqDecision t.
Proof. solve_decision. Defined.
End Bookmark.

Definition ids (l : list Bookmark.t) : list jsstring := Bookmark.id <$> l.

(** ** Change reconciler: the [postgres_changes] callback *)

(** The payload of a change event, by [payload.eventType]: [payload.new]
    of an INSERT or UPDATE, [payload.old.id] of a DELETE. *)
Inductive Payload : Type :=
  | INSERT (new : Bookmark.t)
  | DELETE (old_id : jsstring)
  | UPDATE (new : Bookmark.t).

(** The updater the callback hands to [setBookmarks]. *)
Definition on_change (payload : Payload) (current : list Bookmark.t) : list Bookmark.t :=
  match payload with
  | INSERT new => current ++ [new]
  | DELETE old_id => filter (fun b => Bookmark.id b <> old_id) current
  | UPDATE new =>
      (fun b => if decide (Bookmark.id b = Bookmark.id new) then new else b) <$> current
  end.

(** Events applied in delivery order. *)
Definition on_changes (events : list Payload) (current : list Bookmark.t) : list Bookmark.t :=
  foldl (fun l e => on_change e l) current events.

(** ** Component state *)

Record User : Type := mkUser
  { user_id : jsstring;
    email : option jsstring }.

(** A gateway session; [session.user] is always there. *)
Record Session : Type := mkSession
  { session_user : User }.

(** A handle on a realtime channel, as [supabase.channel(...)] returns it. *)
Definition Channel : Type := nat.

(** The [useState] variables and the [useRef] cell of [BookmarkApp],
    together with the channels the gateway client currently keeps open. *)
Record State : Type := mkState
  { session : option Session;
    user : option User;
    bookmarks : list Bookmark.t;
    title : jsstring;
    url : jsstring;
    loading : bool;
    saving : bool;
    error : option jsstring;
    realtimeChannelRef : option Channel;
    open_channels : list Channel }.

Definition initial : State :=
  mkState None None [] [] [] true false None None [].

(** ** Trace of gateway calls and list writes *)

Inductive Op : Type :=
  | OpSetBookmarks (next : list Bookmark.t)
  | OpSelect
  | OpInsert (title url user_id : jsstring)
  | OpDelete (id : jsstring)
  | OpSubscribe (c : Channel)
  | OpRemoveChannel (c : Channel)
  | OpSignInWithOAuth
  | OpSignOut
  | OpConsoleError.

#[global] Instance Op_eq_dec : EqDecision Op.
Proof. solve_decision. Defined.

(** A piece of handler code: from the state to the next state and what
    it did. *)
Definition Step : Type := State -> State * list Op.

Definition skip : Step := fun st => (st, []).

Definition seq (f g : Step) : Step :=
  fun st =>
    let '(st1, t1) := f st in
    let '(st2, t2) := g st1 in
    (st2, t1 ++ t2).

Declare Scope step_scope.
Delimit Scope step_scope with step.
Bind Scope step_scope with Step.
Notation "f >> g" := (seq f g) (at level 62, right associativity) : step_scope.
Local Open Scope step_scope.

Definition call (o : Op) : Step := fun st => (st, [o]).

Definition setSession (s : option Session) : Step := fun st =>
  (mkState s (user st) (bookmarks st) (title st) (url st) (loading st)
     (saving st) (error st) (realtimeChannelRef st) (open_channels st), []).

Definition setUser (u : option User) : Step := fun st =>
  (mkState (session st) u (bookmarks st) (title st) (url st) (loading st)
     (saving st) (error st) (realtimeChannelRef st) (open_channels st), []).

Definition setBookmarksWith (f : list Bookmark.t -> list Bookmark.t) : Step := fun st =>
  (mkState (session st) (user st) (f (bookmarks st)) (title st) (url st)
     (loading st) (saving st) (error st) (realtimeChannelRef st)
     (open_channels st), [OpSetBookmarks (f (bookmarks st))]).

Definition setBookmarks (l : list Bookmark.t) : Step := setBookmarksWith (fun _ => l).

Definition setTitle (s : jsstring) : Step := fun st =>
  (mkState (session st) (user st) (bookmarks st) s (url st) (loading st)
     (saving st) (error st) (realtimeChannelRef st) (open_channels st), []).

Definition setUrl (s : jsstring) : Step := fun st =>
  (mkState (session st) (user st) (bookmarks st) (title st) s (loading st)
     (saving st) (error st) (realtimeChannelRef st) (open_channels st), []).

Definition setLoading (b : bool) : Step := fun st =>
  (mkState (session st) (user st) (bookmarks st) (title st) (url st) b
     (saving st) (error st) (realtimeChannelRef st) (open_channels st), []).

Definition setSaving (b : bool) : Step := fun st =>
  (mkState (session st) (user st) (bookmarks st) (title st) (url st)
     (loading st) b (error st) (realtimeChannelRef st) (open_channels st), []).

Definition setError (e : option jsstring) : Step := fun st =>
  (mkState (session st) (user st) (bookmarks st) (title st) (url st)
     (loading st) (saving st) e (realtimeChannelRef st) (open_channels st), []).

Definition setRealtimeChannelRef (r : option Channel) : Step := fun st =>
  (mkState (session st) (user st) (bookmarks st) (title st) (url st)
     (loading st) (saving st) (error st) r (open_channels st), []).

(** [supabase.removeChannel(c)]: the gateway closes [c]. *)
Definition removeChannel (c : Channel) : Step := fun st =>
  (mkState (session st) (user st) (bookmarks st) (title st) (url st)
     (loading st) (saving st) (error st) (realtimeChannelRef st)
     (filter (fun c' => c' <> c) (open_channels st)), [OpRemoveChannel c]).

(** [supabase.channel(...).on(...).subscribe()]: the gateway opens [c]. *)
Definition subscribe (c : Channel) : Step := fun st =>
  (mkState (session st) (user st) (bookmarks st) (title st) (url st)
     (loading st) (saving st) (error st) (realtimeChannelRef st)
     (c :: open_channels st), [OpSubscribe c]).

(** ** Snapshot loader *)

(** What [await supabase.from("bookmarks").select(...)] resolves to. *)
Record SelectResponse : Type := mkSelectResponse
  { data : option (list Bookmark.t);
    select_error : option jsstring }.

(** [loadBookmarks] up to its [await]. *)
Definition loadBookmarks_request : Step :=
  setError None >> call OpSelect.

(** [loadBookmarks] after its [await]. *)
Definition loadBookmarks_response (r : SelectResponse) : Step :=
  match select_error r with
  | Some _ => call OpConsoleError >> setError (Some (lit "Failed to load bookmarks"))
  | None => setBookmarks (default [] (data r))
  end.

(** A load with nothing in between request and answer. *)
Definition loadBookmarks (r : SelectResponse) : Step :=
  loadBookmarks_request >> loadBookmarks_response r.

(** ** Change-feed subscription *)

Definition teardownRealtime : Step := fun st =>
  match realtimeChannelRef st with
  | Some c => (removeChannel c >> setRealtimeChannelRef None) st
  | None => skip st
  end.

(** [setupRealtime]; [c] is the channel the gateway client creates. *)
Definition setupRealtime (c : Channel) : Step :=
  teardownRealtime >> subscribe c >> setRealtimeChannelRef (Some c).

(** The callback of the subscription, on one delivered event. *)
Definition postgres_changes (payload : Payload) : Step :=
  setBookmarksWith (on_change payload).

(** ** Session tracker *)

(** The listener given to [supabase.auth.onAuthStateChange]. In the
    signed-in branch [loadBookmarks()] is not awaited: it runs up to its
    [await] and its answer is handled later. [c] is the channel
    [setupRealtime] creates there. *)
Definition onAuthStateChange (newSession : option Session) (c : Channel) : Step :=
  setSession newSession >>
  setUser (session_user <$> newSession) >>
  match session_user <$> newSession with
  | None => setBookmarks [] >> teardownRealtime
  | Some _ => loadBookmarks_request >> setupRealtime c
  end.

(** [init] after [await supabase.auth.getSession()]; with a user it goes
    on into [loadBookmarks], up to the [await] there. *)
Definition init_session (isMounted : bool) (s : option Session) : Step :=
  if isMounted then
    setSession s >>
    setUser (session_user <$> s) >>
    setLoading false >>
    match session_user <$> s with
    | Some _ => loadBookmarks_request
    | None => skip
    end
  else skip.

(** [init] from the answer of that load on. *)
Definition init_loaded (r : SelectResponse) (c : Channel) : Step :=
  loadBookmarks_response r >> setupRealtime c.

(** The clean-up of the effect, on unmount. *)
Definition cleanup : Step := teardownRealtime.

(** [handleSignIn], before and after its [await]. *)
Definition handleSignIn_request : Step :=
  setError None >> call OpSignInWithOAuth.

Definition handleSignIn_response (err : option jsstring) : Step :=
  match err with
  | Some _ => call OpConsoleError >> setError (Some (lit "Failed to sign in with Google"))
  | None => skip
  end.

(** [handleSignOut] up to its [await]. *)
Definition handleSignOut : Step :=
  setError None >> teardownRealtime >> call OpSignOut.

(** ** Command handlers *)

(** The [normalizedUrl] of [handleAddBookmark]. *)
Definition normalizedUrl (url : jsstring) : jsstring :=
  if startsWith url (lit "http://") || startsWith url (lit "https://")
  then url
  else lit "https://" ++ url.

(** [handleAddBookmark] up to its [await]; it reads [user], [url] and
    [title] of the state it is called in. *)
Definition handleAddBookmark_request : Step := fun st =>
  match user st with
  | None => skip st
  | Some u =>
      if negb (truthy (trim (url st))) || negb (truthy (trim (title st)))
      then setError (Some (lit "Please provide both a title and URL")) st
      else (setSaving true >>
            setError None >>
            call (OpInsert (trim (title st)) (trim (normalizedUrl (url st)))
                    (user_id u))) st
  end.

(** [handleAddBookmark] after its [await], on the [error] of the answer. *)
Definition handleAddBookmark_response (err : option jsstring) : Step :=
  setSaving false >>
  match err with
  | Some _ => call OpConsoleError >> setError (Some (lit "Failed to save bookmark"))
  | None => setTitle [] >> setUrl []
  end.

Definition handleDeleteBookmark_request (id : jsstring) : Step :=
  setError None >> call (OpDelete id).

Definition handleDeleteBookmark_response (err : option jsstring) : Step :=
  match err with
  | Some _ => call OpConsoleError >> setError (Some (lit "Failed to delete bookmark"))
  | None => skip
  end.

(** The normalization as the specification words it: the test is made on
    the trimmed URL. *)
Definition spec_normalizedUrl (url : jsstring) : jsstring :=
  let trimmed := trim url in
  if startsWith trimmed (lit "http://") || startsWith trimmed (lit "https://")
  then trimmed
  else lit "https://" ++ trimmed.

(** The kinds of operation the order of a sign-out is about. *)
Definition is_clear (o : Op) : bool :=
  match o with OpSetBookmarks [] => true | _ => false end.

Definition is_teardown (o : Op) : bool :=
  match o with OpRemoveChannel _ => true | _ => false end.

(** Position of the first operation of a kind in a trace. *)
Fixpoint first_index (p : Op -> bool) (t : list Op) : option nat :=
  match t with
  | [] => None
  | o :: t' => if p o then Some 0%nat else S <$> first_index p t'
  end.

(** In trace [t] an operation of kind [p] comes before the first of kind [q]. *)
Definition happens_before (p q : Op -> bool) (t : list Op) : bool :=
  match first_index p t, first_index q t with
  | Some i, Some j => (i <? j)%nat
  | _, _ => false
  end.

(** ** View projector *)

(** [Array.prototype.sort] with a comparator: ECMAScript asks for a stable
    sort, and reads a NaN comparator result as [+0]. With a consistent
    comparator the outcome is fixed by that, whatever the engine's
    algorithm; it is computed here by stable insertion. *)
Section ArraySort.
Context {A : Type}.
Variable comparefn : A -> A -> option Z.

Definition SortCompare (x y : A) : Z := default 0%Z (comparefn x y).

Fixpoint sort_insert (x : A) (sorted : list A) : list A :=
  match sorted with
  | [] => [x]
  | y :: rest =>
      if (0 <? SortCompare x y)%Z then y :: sort_insert x rest else x :: sorted
  end.

Definition Array_sort (l : list A) : list A := foldr sort_insert [] l.
End ArraySort.

Section Projector.
(** [new Date(s).getTime()]: the time value in milliseconds, [None] for
    NaN (a string that is no date). *)
Variable getTime : jsstring -> option Z.

(** [(a, b) => new Date(b.created_at).getTime() - new Date(a.created_at).getTime()];
    the difference of two time values has the sign of the exact one. *)
Definition by_created_at_desc (a b : Bookmark.t) : option Z :=
  match getTime (Bookmark.created_at b), getTime (Bookmark.created_at a) with
  | Some tb, Some ta => Some (tb - ta)%Z
  | _, _ => None
  end.

Definition sortedBookmarks (bookmarks : list Bookmark.t) : list Bookmark.t :=
  Array_sort by_created_at_desc bookmarks.

(** The time value of a record whose timestamp is a date. *)
Definition created (b : Bookmark.t) : Z :=
  default 0%Z (getTime (Bookmark.created_at b)).

Definition valid_dates (l : list Bookmark.t) : Prop :=
  Forall (fun b => is_Some (getTime (Bookmark.created_at b))) l.

(** [a] may be shown before [b]: it is not the older one. *)
Definition newer_or_same (a b : Bookmark.t) : Prop :=
  (created b <= created a)%Z.
End Projector.

(** ** Timestamps of the backend

    The part of [Date]'s parser that reads the ECMAScript date-time format
    with an offset, [YYYY-MM-DDTHH:mm:ss], an optional fraction of one or
    more digits, then [Z] or [+HH:mm] or [-HH:mm], the shape of a
    [timestamptz] column. As the engine does, it keeps three places of the
    fraction and drops the rest, takes a day up to 31 in any month and
    lets it run into the next one, and takes [24:00:00]. A string of
    another shape is outside this part: [None] is no statement about it.

    [micros] is the instant the same string denotes, to the microsecond,
    the precision the backend keeps. *)
Module IsoDate.
Local Open Scope Z_scope.

Definition digit (c : N) : option Z :=
  if ((48 <=? c) && (c <=? 57))%N then Some (Z.of_N c - 48) else None.

(** Read exactly [n] decimal digits. *)
Fixpoint number (n : nat) (acc : Z) (s : jsstring) : option (Z * jsstring) :=
  match n with
  | O => Some (acc, s)
  | S n' =>
      match s with
      | [] => None
      | c :: s' => d ← digit c; number n' (10 * acc + d) s'
      end
  end.

Definition char (c : N) (s : jsstring) : option jsstring :=
  match s with
  | c' :: s' => if decide (c' = c) then Some s' else None
  | [] => None
  end.

(** Days from 1970-01-01 to the given day of the proleptic Gregorian
    calendar; a day past the end of the month counts on into the next. *)
Definition days_from_civil (y m d : Z) : Z :=
  let y' := if m <=? 2 then y - 1 else y in
  let era := y' / 400 in
  let yoe := y' - era * 400 in
  let mp := (m + 9) mod 12 in
  let doy := (153 * mp + 2) / 5 + d - 1 in
  let doe := yoe * 365 + yoe / 4 - yoe / 100 + doy in
  era * 146097 + doe - 719468.

(** The digits at the front of a string, and what follows them. *)
Fixpoint digits (s : jsstring) : list Z * jsstring :=
  match s with
  | [] => ([], [])
  | c :: s' =>
      match digit c with
      | Some d => let '(ds, rest) := digits s' in (d :: ds, rest)
      | None => ([], s)
      end
  end.

(** The first [n] places of a fraction, zeros standing for the places
    that are not written: the fraction cut off after [n] places. *)
Fixpoint places (n : nat) (acc : Z) (ds : list Z) : Z :=
  match n with
  | O => acc
  | S n' =>
      match ds with
      | d :: ds' => places n' (10 * acc + d) ds'
      | [] => places n' (10 * acc) []
      end
  end.

(** The digits of the fraction, none when no fraction is written. *)
Definition fraction (s : jsstring) : option (list Z * jsstring) :=
  match s with
  | 46%N :: s' =>
      match digits s' with
      | ([], _) => None
      | (ds, rest) => Some (ds, rest)
      end
  | _ => Some ([], s)
  end.

Definition offset (s : jsstring) : option Z :=
  match s with
  | [90%N] => Some 0
  | sign :: s' =>
      if decide (sign = 43%N \/ sign = 45%N) then
        '(h, s1) ← number 2 0 s';
        s2 ← char 58 s1;
        '(mi, s3) ← number 2 0 s2;
        match s3 with
        | [] =>
            if (h <=? 23) && (mi <=? 59)
            then Some ((if decide (sign = 45%N) then -1 else 1) * (h * 60 + mi))
            else None
        | _ :: _ => None
        end
      else None
  | [] => None
  end.

(** The instant in units of [10^-n] seconds since 1970-01-01T00:00:00Z,
    the fraction cut off after [n] places; a string is a date or not by
    what [Date] keeps of it, the milliseconds. *)
Definition instant (n : nat) (s : jsstring) : option Z :=
  '(y, s) ← number 4 0 s;
  s ← char 45 s;
  '(m, s) ← number 2 0 s;
  s ← char 45 s;
  '(d, s) ← number 2 0 s;
  s ← char 84 s;
  '(h, s) ← number 2 0 s;
  s ← char 58 s;
  '(mi, s) ← number 2 0 s;
  s ← char 58 s;
  '(sec, s) ← number 2 0 s;
  '(frac, s) ← fraction s;
  off ← offset s;
  if (1 <=? m) && (m <=? 12) && (1 <=? d) && (d <=? 31)
     && (mi <=? 59) && (sec <=? 59)
     && ((h <=? 23)
         || ((h =? 24) && (mi =? 0) && (sec =? 0) && (places 3 0 frac =? 0)))
  then Some ((((days_from_civil y m d * 24 + h) * 60 + mi - off) * 60 + sec)
               * 10 ^ Z.of_nat n
             + places n 0 frac)
  else None.

(** [new Date(s).getTime()]: whole milliseconds. *)
Definition getTime (s : jsstring) : option Z := instant 3 s.

(** The timestamp itself, in microseconds. *)
Definition micros (s : jsstring) : option Z := instant 6 s.
End IsoDate.

(** ** The event sequence as a log over a map keyed by identifier *)

(** The records of a list written, in order, into a map keyed by
    identifier. *)
Definition index_into (m : gmap jsstring Bookmark.t) (l : list Bookmark.t) : gmap jsstring Bookmark.t :=
  foldl (fun m b => <[Bookmark.id b := b]> m) m l.

(** The list read as a map: the last record of an identifier is the one
    kept. *)
Definition index_by_id (l : list Bookmark.t) : gmap jsstring Bookmark.t :=
  index_into ∅ l.

(** The log as the specification words it: an insert and an update both
    write the record of their identifier, a delete removes it. *)
Definition log_write (m : gmap jsstring Bookmark.t) (e : Payload) : gmap jsstring Bookmark.t :=
  match e with
  | INSERT new => <[Bookmark.id new := new]> m
  | DELETE old_id => delete old_id m
  | UPDATE new => <[Bookmark.id new := new]> m
  end.

Definition log_of (events : list Payload) (initial : list Bookmark.t) : gmap jsstring Bookmark.t :=
  foldl log_write (index_by_id initial) events.

(** The log the reconciler follows: an update writes only where a record of
    its identifier is there. *)
Definition replay_write (m : gmap jsstring Bookmark.t) (e : Payload) : gmap jsstring Bookmark.t :=
  match e with
  | INSERT new => <[Bookmark.id new := new]> m
  | DELETE old_id => delete old_id m
  | UPDATE new => alter (fun _ => new) (Bookmark.id new) m
  end.

Definition replay_of (events : list Payload) (initial : list Bookmark.t) : gmap jsstring Bookmark.t :=
  foldl replay_write (index_by_id initial) events.

(** The list holds exactly the records of the map. *)
Definition holds_exactly (l : list Bookmark.t) (m : gmap jsstring Bookmark.t) : Prop :=
  forall b, b ∈ l <-> exists i, m !! i = Some b.

(** No insert of the sequence carries an identifier that is in the list
    when it is applied. *)
Fixpoint inserts_fresh (events : list Payload) (current : list Bookmark.t) : bool :=
  match events with
  | [] => true
  | e :: rest =>
      match e with
      | INSERT new => bool_decide (Bookmark.id new ∉ ids current)
      | _ => true
      end && inserts_fresh rest (on_change e current)
  end.

(** The identifier an update or a delete event looks for in the list. *)
Definition target (e : Payload) : option jsstring :=
  match e with
  | INSERT _ => None
  | DELETE old_id => Some old_id
  | UPDATE new => Some (Bookmark.id new)
  end.

(** What a single mutation of the list is. *)
Inductive Mutation : Type :=
  | Load (r : SelectResponse)
  | Feed (payload : Payload).

Definition mutate (mu : Mutation) : Step :=
  match mu with
  | Load r => loadBookmarks_response r
  | Feed payload => postgres_changes payload
  end.

(** A mutation that cannot bring an identifier in twice: a load whose
    records have distinct identifiers (the primary key of the table), an
    insert of an identifier that is not there, any update or delete. *)
Definition brings_no_duplicate (mu : Mutation) (current : list Bookmark.t) : Prop :=
  match mu with
  | Load r => select_error r = None -> NoDup (ids (default [] (data r)))
  | Feed (INSERT new) => Bookmark.id new ∉ ids current
  | Feed _ => True
  end.

(** ** Everything that can happen to the component

    The entry points of [BookmarkApp], each cut at its [await]s: the two
    halves of [init], the auth-state listener, the clean-up of the effect,
    the answer of a load the listener started, a feed event, typing in the
    two fields, and the four commands with their answers. *)
Inductive Action : Type :=
  | Init (isMounted : bool) (s : option Session)
  | InitLoaded (r : SelectResponse) (c : Channel)
  | AuthStateChange (newSession : option Session) (c : Channel)
  | Cleanup
  | LoadResponse (r : SelectResponse)
  | PostgresChanges (payload : Payload)
  | TypeTitle (value : jsstring)
  | TypeUrl (value : jsstring)
  | SignIn
  | SignInResponse (err : option jsstring)
  | SignOut
  | AddBookmark
  | AddBookmarkResponse (err : option jsstring)
  | DeleteBookmark (id : jsstring)
  | DeleteBookmarkResponse (err : option jsstring).

Definition run (a : Action) : Step :=
  match a with
  | Init isMounted s => init_session isMounted s
  | InitLoaded r c => init_loaded r c
  | AuthStateChange newSession c => onAuthStateChange newSession c
  | Cleanup => cleanup
  | LoadResponse r => loadBookmarks_response r
  | PostgresChanges payload => postgres_changes payload
  | TypeTitle value => setTitle value
  | TypeUrl value => setUrl value
  | SignIn => handleSignIn_request
  | SignInResponse err => handleSignIn_response err
  | SignOut => handleSignOut
  | AddBookmark => handleAddBookmark_request
  | AddBookmarkResponse err => handleAddBookmark_response err
  | DeleteBookmark id => handleDeleteBookmark_request id
  | DeleteBookmarkResponse err => handleDeleteBookmark_response err
  end.

(** Actions one after the other, in the order they happen. *)
Fixpoint run_all (actions : list Action) : Step :=
  match actions with
  | [] => skip
  | a :: rest => run a >> run_all rest
  end.

(** The actions whose code calls [setBookmarks]. *)
Definition writes_list (a : Action) : bool :=
  match a with
  | InitLoaded _ _ | LoadResponse _ | PostgresChanges _ => true
  | AuthStateChange None _ => true
  | _ => false
  end.

(** The open channels are the one the reference holds, if it holds one. *)
Definition one_feed (st : State) : Prop :=
  open_channels st = option_list (realtimeChannelRef st).

(** [user] is the user of [session]. *)
Definition user_of_session (st : State) : Prop :=
  user st = session_user <$> session st.

(** The messages the component can show. *)
Definition messages : list jsstring :=
  [ lit "Failed to load bookmarks";
    lit "Failed to sign in with Google";
    lit "Please provide both a title and URL";
    lit "Failed to save bookmark";
    lit "Failed to delete bookmark" ].

Definition is_subscribe (o : Op) : bool :=
  match o with OpSubscribe _ => true | _ => false end.

Definition is_list_write (o : Op) : bool :=
  match o with OpSetBookmarks _ => true | _ => false end.

Definition count_ops (p : Op -> bool) (t : list Op) : nat :=
  length (List.filter p t).

(** The test of [normalizedUrl]: the string starts with one of the two
    schemes. *)
Definition has_scheme (url : jsstring) : bool :=
  startsWith url (lit "http://") || startsWith url (lit "https://").

(** ** The URL field

    What an [<input type="url">] reports as its [value], the
    [e.target.value] its [onChange] stores, for a text put into it: the
    value sanitization of HTML, which takes line feeds and carriage
    returns out and strips ASCII white space (tab, line feed, form feed,
    carriage return, space) from both ends. Other characters that
    [String.prototype.trim] strips, such as U+000B and U+00A0, stay. *)
Definition isAsciiWhitespace (c : N) : bool :=
  (c =? 0x09) || (c =? 0x0A) || (c =? 0x0C) || (c =? 0x0D) || (c =? 0x20).

Definition isNewline (c : N) : bool := (c =? 0x0A) || (c =? 0x0D).

Fixpoint stripStart (s : jsstring) : jsstring :=
  match s with
  | [] => []
  | c :: s' => if isAsciiWhitespace c then stripStart s' else s
  end.

Definition url_input_value (text : jsstring) : jsstring :=
  let kept := List.filter (fun c => negb (isNewline c)) text in
  rev (stripStart (rev (stripStart kept))).

(** ** What is rendered *)

Inductive Screen : Type :=
  | Connecting
  | SignInScreen
  | BookmarkScreen.

(** The three [return]s of the component. *)
Definition screen (st : State) : Screen :=
  if loading st then Connecting
  else
    match session st, user st with
    | Some _, Some _ => BookmarkScreen
    | _, _ => SignInScreen
    end.

(** The identifier an event is about. *)
Definition event_id (e : Payload) : jsstring :=
  match e with
  | INSERT new => Bookmark.id new
  | DELETE old_id => old_id
  | UPDATE new => Bookmark.id new
  end.

Definition is_INSERT (e : Payload) : bool :=
  match e with INSERT _ => true | _ => false end.

(** ** Sample records and states *)

Module Sample.
Definition first : Bookmark.t :=
  Bookmark.mk (lit "1") (lit "https://rocq-prover.org") (lit "Rocq")
    (lit "2024-01-01T00:00:00Z").

(** A later version of [first]: same identifier, new title. *)
Definition first_again : Bookmark.t :=
  Bookmark.mk (lit "1") (lit "https://rocq-prover.org") (lit "Rocq prover")
    (lit "2024-01-01T00:00:00Z").

Definition second : Bookmark.t :=
  Bookmark.mk (lit "2") (lit "https://example.com") (lit "Example")
    (lit "2024-01-02T00:00:00.000+00:00").

Definition third : Bookmark.t :=
  Bookmark.mk (lit "3") (lit "https://example.org") (lit "Third")
    (lit "2024-01-03T08:30:00+02:00").

(** Two records made in one millisecond, a microsecond apart. *)
Definition fourth : Bookmark.t :=
  Bookmark.mk (lit "4") (lit "https://example.net/a") (lit "Fourth")
    (lit "2024-01-04T10:00:00.123456+00:00").

Definition fifth : Bookmark.t :=
  Bookmark.mk (lit "5") (lit "https://example.net/b") (lit "Fifth")
    (lit "2024-01-04T10:00:00.123457+00:00").

Definition alice : User := mkUser (lit "alice") (Some (lit "alice@example.com")).

(** Signed in, two records loaded, the feed open on channel 7. *)
Definition signed_in : State :=
  mkState (Some (mkSession alice)) (Some alice) [first; second] [] [] false
    false None (Some 7%nat) [7%nat].

(** Nobody signed in, something typed in both fields. *)
Definition signed_out : State :=
  mkState None None [] (lit "Example") (lit "example.com") false false None
    None [].
End Sample.

(** * Properties *)

(** A closed decidable proposition, settled by evaluating its decision
    procedure. *)
Ltac by_compute :=
  lazymatch goal with
  | |- ?P => refine (bool_decide_unpack P _); vm_compute; exact I
  end.

(** ** Change reconciler *)

Section Reconciler.
Implicit Types (l : list Bookmark.t) (b new : Bookmark.t) (i old_id : jsstring).
Implicit Types (m : gmap jsstring Bookmark.t) (e : Payload).

Lemma ids_app l1 l2 : ids (l1 ++ l2) = ids l1 ++ ids l2.
Proof. unfold ids. apply fmap_app. Qed.

Lemma on_change_update_ids new l : ids (on_change (UPDATE new) l) = ids l.
Proof.
  unfold ids; simpl. rewrite <- list_fmap_compose.
  apply list_fmap_ext. intros _ b _. simpl. by case_decide.
Qed.

Lemma on_change_update_absent new l :
  Bookmark.id new ∉ ids l -> on_change (UPDATE new) l = l.
Proof.
  unfold ids; simpl. induction l as [|b l IH]; [done|].
  rewrite fmap_cons, not_elem_of_cons. intros [Hne Hl].
  rewrite fmap_cons, (IH Hl). by case_decide.
Qed.

Lemma on_change_delete_absent old_id l :
  old_id ∉ ids l -> on_change (DELETE old_id) l = l.
Proof.
  unfold ids; simpl. induction l as [|b l IH]; [done|].
  rewrite fmap_cons, not_elem_of_cons. intros [Hne Hl].
  rewrite filter_cons_True by done. by rewrite (IH Hl).
Qed.

Lemma on_change_delete_NoDup old_id l :
  NoDup (ids l) -> NoDup (ids (on_change (DELETE old_id) l)).
Proof.
  intros Hnd. eapply sublist_NoDup; [exact Hnd|].
  unfold ids; simpl. apply fmap_sublist, sublist_filter.
Qed.

Lemma on_change_insert_NoDup new l :
  NoDup (ids l) -> Bookmark.id new ∉ ids l -> NoDup (ids (on_change (INSERT new) l)).
Proof.
  intros Hnd Hfresh. simpl. rewrite ids_app. apply NoDup_app.
  split; [done|]. split; [|apply NoDup_singleton].
  intros i Hi. simpl. rewrite list_elem_of_singleton. by intros ->.
Qed.

(** *** The list as a map *)

Lemma index_by_id_snoc l b :
  index_by_id (l ++ [b]) = <[Bookmark.id b := b]> (index_by_id l).
Proof. unfold index_by_id, index_into. by rewrite foldl_app. Qed.

Lemma index_into_delete old_id l m :
  index_into (delete old_id m) (on_change (DELETE old_id) l)
  = delete old_id (index_into m l).
Proof.
  revert m. induction l as [|b l IH]; intros m; [done|]. simpl.
  destruct (decide (Bookmark.id b = old_id)) as [Heq|Hne].
  - rewrite filter_cons_False; [|intros Hn; by apply Hn].
    simpl in IH. rewrite <- IH. subst old_id. by rewrite delete_insert_eq.
  - rewrite filter_cons_True by done. simpl.
    simpl in IH. rewrite <- IH. by rewrite delete_insert_ne.
Qed.

Lemma index_into_update new l m :
  index_into (alter (fun _ => new) (Bookmark.id new) m) (on_change (UPDATE new) l)
  = alter (fun _ => new) (Bookmark.id new) (index_into m l).
Proof.
  revert m. induction l as [|b l IH]; intros m; [done|]. simpl.
  simpl in IH. rewrite <- IH. f_equal.
  case_decide as Hb.
  - rewrite Hb. by rewrite insert_alter_eq, alter_insert_eq.
  - rewrite alter_insert_ne by done. done.
Qed.

(** One event on the list is one write of the replayed log. *)
Lemma index_by_id_on_change e l :
  index_by_id (on_change e l) = replay_write (index_by_id l) e.
Proof.
  destruct e as [new|old_id|new].
  - apply index_by_id_snoc.
  - unfold index_by_id, replay_write.
    rewrite <- (index_into_delete old_id l ∅). by rewrite delete_empty.
  - unfold index_by_id, replay_write.
    rewrite <- (index_into_update new l ∅). by rewrite alter_empty.
Qed.

Lemma index_by_id_on_changes events l :
  index_by_id (on_changes events l) = replay_of events l.
Proof.
  unfold on_changes, replay_of. revert l.
  induction events as [|e events IH]; intros l; [done|]. simpl.
  by rewrite IH, index_by_id_on_change.
Qed.

Lemma index_by_id_lookup l i b :
  index_by_id l !! i = Some b -> b ∈ l /\ Bookmark.id b = i.
Proof.
  revert i b. induction l as [|x l IH] using rev_ind; intros i b.
  - unfold index_by_id; simpl. by rewrite lookup_empty.
  - rewrite index_by_id_snoc, lookup_insert. case_decide as Hi.
    + intros [= <-]. split; [|done]. apply elem_of_app. right. by left.
    + intros H. destruct (IH _ _ H) as [Hin Hid]. split; [|done].
      apply elem_of_app. by left.
Qed.

Lemma index_by_id_elem l b :
  NoDup (ids l) -> b ∈ l -> index_by_id l !! Bookmark.id b = Some b.
Proof.
  induction l as [|x l IH] using rev_ind; intros Hnd Hb.
  - by apply elem_of_nil in Hb.
  - rewrite ids_app in Hnd. apply NoDup_app in Hnd as (Hnd & Hx & _).
    rewrite index_by_id_snoc, lookup_insert.
    apply elem_of_app in Hb as [Hb|Hb].
    + case_decide as Heq; [|by apply IH].
      exfalso. apply (Hx (Bookmark.id b)).
      * unfold ids. by apply list_elem_of_fmap_2.
      * rewrite <- Heq. unfold ids; simpl. by left.
    + apply list_elem_of_singleton in Hb as ->. by rewrite decide_True.
Qed.

Lemma index_by_id_exact l : NoDup (ids l) -> holds_exactly l (index_by_id l).
Proof.
  intros Hnd b. split.
  - intros Hb. exists (Bookmark.id b). by apply index_by_id_elem.
  - intros [i Hi]. by apply index_by_id_lookup in Hi as [? _].
Qed.

Lemma on_changes_NoDup events l :
  NoDup (ids l) -> inserts_fresh events l = true ->
  NoDup (ids (on_changes events l)).
Proof.
  unfold on_changes. revert l.
  induction events as [|e events IH]; intros l Hnd Hfresh; [done|].
  simpl in *. apply andb_prop in Hfresh as [He Hrest].
  apply IH; [|done].
  destruct e as [new|old_id|new].
  - apply on_change_insert_NoDup; [done|]. by apply bool_decide_eq_true in He.
  - by apply on_change_delete_NoDup.
  - by rewrite on_change_update_ids.
Qed.
End Reconciler.

Lemma index_by_id_is_Some (l : list Bookmark.t) (i : jsstring) :
  i ∈ ids l -> is_Some (index_by_id l !! i).
Proof.
  induction l as [|x l IH] using rev_ind; intros Hi.
  - by apply elem_of_nil in Hi.
  - rewrite index_by_id_snoc, lookup_insert. case_decide; [by eexists|].
    rewrite ids_app in Hi. apply elem_of_app in Hi as [Hi|Hi]; [by apply IH|].
    apply list_elem_of_singleton in Hi. congruence.
Qed.

(** C4: an update or a delete event whose identifier is not in the list
    leaves the list exactly as it is, and so the whole component state. *)
Theorem absent_target_is_noop (st : State) (e : Payload) (i : jsstring) :
  target e = Some i ->
  i ∉ ids (bookmarks st) ->
  on_change e (bookmarks st) = bookmarks st
  /\ (postgres_changes e st).1 = st.
Proof.
  intros He Hi.
  assert (on_change e (bookmarks st) = bookmarks st) as Heq.
  { destruct e as [new|old_id|new]; simpl in He; [done| |];
      injection He as <-.
    - by apply on_change_delete_absent.
    - by apply on_change_update_absent. }
  split; [done|].
  unfold postgres_changes, setBookmarksWith. simpl. rewrite Heq. by destruct st.
Qed.

Lemma absent_target_is_noop_witness :
  on_change (DELETE (lit "9")) (bookmarks Sample.signed_in) = bookmarks Sample.signed_in
  /\ (postgres_changes (DELETE (lit "9")) Sample.signed_in).1 = Sample.signed_in.
Proof.
  apply (absent_target_is_noop Sample.signed_in (DELETE (lit "9")) (lit "9")).
  - reflexivity.
  - by_compute.
Defined.

(** C1, as stated, fails: on the list [[first]] the insert of a record
    with the identifier of [first] gives two records, the update one. *)
Lemma duplicate_insert_differs_from_update :
  Bookmark.id Sample.first_again ∈ ids [Sample.first]
  /\ on_change (INSERT Sample.first_again) [Sample.first]
     <> on_change (UPDATE Sample.first_again) [Sample.first].
Proof.
  split.
  - by_compute.
  - vm_compute. discriminate.
Qed.

(** C1, amended: an insert event whose identifier is already in the list
    appends its record and keeps what was there, so its list is one longer
    than the list of the update with the same payload; the two lists agree
    in the last record they hold of each identifier. *)
Theorem duplicate_insert_appends (l : list Bookmark.t) (new : Bookmark.t) :
  Bookmark.id new ∈ ids l ->
  on_change (INSERT new) l = l ++ [new]
  /\ length (on_change (INSERT new) l) = S (length (on_change (UPDATE new) l))
  /\ index_by_id (on_change (INSERT new) l) = index_by_id (on_change (UPDATE new) l).
Proof.
  intros Hin. split; [done|]. split.
  - simpl. rewrite length_app, length_fmap. simpl. lia.
  - rewrite !index_by_id_on_change. simpl.
    destruct (index_by_id_is_Some l _ Hin) as [old Hold].
    by rewrite (alter_alt_Some _ _ _ _ Hold).
Qed.

Lemma duplicate_insert_appends_witness :
  on_change (INSERT Sample.first_again) [Sample.first]
    = [Sample.first] ++ [Sample.first_again]
  /\ length (on_change (INSERT Sample.first_again) [Sample.first])
     = S (length (on_change (UPDATE Sample.first_again) [Sample.first]))
  /\ index_by_id (on_change (INSERT Sample.first_again) [Sample.first])
     = index_by_id (on_change (UPDATE Sample.first_again) [Sample.first]).
Proof.
  apply (duplicate_insert_appends [Sample.first] Sample.first_again).
  by_compute.
Defined.

(** C3, as stated, fails: the identifiers of the loaded list are distinct,
    and after the insert event for an identifier that is there they are
    not. *)
Lemma insert_breaks_unique_ids :
  NoDup (ids (bookmarks Sample.signed_in))
  /\ ~ NoDup (ids (bookmarks (postgres_changes (INSERT Sample.first_again) Sample.signed_in).1)).
Proof.
  split.
  - by_compute.
  - intros Hdup. apply (bool_decide_pack (NoDup _)) in Hdup. vm_compute in Hdup. exact Hdup.
Qed.

(** C3, amended: distinct identifiers stay distinct under a load whose
    records have distinct identifiers or that fails, under an insert event
    whose identifier is not in the list, and under every update and delete
    event. *)
Theorem unique_ids_preserved (mu : Mutation) (st : State) :
  NoDup (ids (bookmarks st)) ->
  brings_no_duplicate mu (bookmarks st) ->
  NoDup (ids (bookmarks (mutate mu st).1)).
Proof.
  intros Hnd Hmu. destruct mu as [r|e].
  - unfold mutate, loadBookmarks_response.
    destruct (select_error r) eqn:Herr; simpl; [done|]. by apply Hmu.
  - change (NoDup (ids (on_change e (bookmarks st)))).
    destruct e as [new|old_id|new].
    + by apply on_change_insert_NoDup.
    + by apply on_change_delete_NoDup.
    + by rewrite on_change_update_ids.
Qed.

Lemma unique_ids_preserved_witness :
  NoDup (ids (bookmarks (mutate (Feed (INSERT Sample.third)) Sample.signed_in).1)).
Proof.
  apply (unique_ids_preserved (Feed (INSERT Sample.third)) Sample.signed_in).
  - by_compute.
  - unfold brings_no_duplicate. by_compute.
Defined.

(** C2, as stated, fails in three ways. Two inserts of one identifier
    leave both records in the list, and the log holds the later one only;
    an update of an identifier that is not in the list writes nothing, and
    the log holds its record; and a list that starts with one identifier
    twice holds a record more than a map keyed by identifier can. *)
Lemma list_is_not_the_log :
  ~ holds_exactly
      (on_changes [INSERT Sample.first; INSERT Sample.first_again] [])
      (log_of [INSERT Sample.first; INSERT Sample.first_again] [])
  /\ ~ holds_exactly
      (on_changes [UPDATE Sample.first] [])
      (log_of [UPDATE Sample.first] [])
  /\ ~ holds_exactly
      (on_changes [] [Sample.first; Sample.first_again])
      (log_of [] [Sample.first; Sample.first_again]).
Proof.
  assert (forall i, (<[Bookmark.id Sample.first_again := Sample.first_again]>
                     (<[Bookmark.id Sample.first := Sample.first]> ∅)
                     : gmap jsstring Bookmark.t) !! i <> Some Sample.first)
    as Hlater.
  { intros i Hi. rewrite insert_insert_eq, lookup_insert in Hi.
    case_decide; [|by rewrite lookup_empty in Hi].
    injection Hi as Hi. vm_compute in Hi. discriminate Hi. }
  split; [|split]; intros H.
  - destruct (proj1 (H Sample.first)) as [i Hi]; [by left|].
    by apply (Hlater i).
  - apply (elem_of_nil Sample.first). apply (proj2 (H Sample.first)).
    exists (Bookmark.id Sample.first).
    unfold log_of, index_by_id; simpl. apply lookup_insert_eq.
  - destruct (proj1 (H Sample.first)) as [i Hi]; [by left|].
    by apply (Hlater i).
Qed.

(** C2, amended: from a list with distinct identifiers, and when no insert
    event carries an identifier that is in the list as it is applied, the
    resulting list holds exactly the records of the log over a map keyed by
    identifier in which an insert writes its record, an update writes its
    record only where its identifier is there, and a delete removes the
    identifier whatever was there; the identifiers stay distinct. *)
Theorem list_is_the_replayed_log (events : list Payload) (l : list Bookmark.t) :
  NoDup (ids l) ->
  inserts_fresh events l = true ->
  holds_exactly (on_changes events l) (replay_of events l)
  /\ NoDup (ids (on_changes events l)).
Proof.
  intros Hnd Hfresh.
  pose proof (on_changes_NoDup events l Hnd Hfresh) as Hnd'.
  split; [|done].
  rewrite <- index_by_id_on_changes. by apply index_by_id_exact.
Qed.

Lemma list_is_the_replayed_log_witness :
  holds_exactly
    (on_changes [UPDATE Sample.first_again; INSERT Sample.second; DELETE (lit "1")]
       [Sample.first])
    (replay_of [UPDATE Sample.first_again; INSERT Sample.second; DELETE (lit "1")]
       [Sample.first])
  /\ NoDup (ids (on_changes
       [UPDATE Sample.first_again; INSERT Sample.second; DELETE (lit "1")]
       [Sample.first])).
Proof.
  apply (list_is_the_replayed_log
           [UPDATE Sample.first_again; INSERT Sample.second; DELETE (lit "1")]
           [Sample.first]).
  - by_compute.
  - vm_compute. reflexivity.
Defined.

(** Where the two logs part: they agree on every sequence in which each
    update finds its identifier. *)
Lemma replay_write_is_log_write (m : gmap jsstring Bookmark.t) (e : Payload) :
  (forall new, e = UPDATE new -> is_Some (m !! Bookmark.id new)) ->
  replay_write m e = log_write m e.
Proof.
  destruct e as [new|old_id|new]; intros H; [done|done|]. simpl.
  destruct (H new eq_refl) as [old Hold].
  by rewrite (alter_alt_Some _ _ _ _ Hold).
Qed.

(** ** Command handlers *)

(** C5, where the code leaves the claim: the prefix test reads the field
    as it is and the trim comes after it. A URL with U+000B in front is
    kept as it is by the URL field, starts with [http://] after trimming,
    and is sent with [https://] and the U+000B in front; the same with
    U+00A0. *)
Theorem url_behind_white_space_is_prefixed :
  let text := 0x0B :: lit "http://example.com" in
  let text' := 0xA0 :: lit "http://example.com" in
  let titled := mkState (Some (mkSession Sample.alice)) (Some Sample.alice) []
                  (lit "Example") [] false false None None [] in
  (url_input_value text = text
   /\ startsWith (trim text) (lit "http://") = true
   /\ spec_normalizedUrl text = lit "http://example.com"
   /\ ((run (TypeUrl (url_input_value text)) >> handleAddBookmark_request)
        titled).2
      = [OpInsert (lit "Example") (lit "https://" ++ text) (lit "alice")])
  /\ (url_input_value text' = text'
      /\ spec_normalizedUrl text' = lit "http://example.com"
      /\ ((run (TypeUrl (url_input_value text')) >> handleAddBookmark_request)
           titled).2
         = [OpInsert (lit "Example") (lit "https://" ++ text') (lit "alice")]).
Proof. repeat split; vm_compute; reflexivity. Qed.

(** A space in front does not get that far: the URL field strips it, and
    the URL is sent as it is. *)
Lemma leading_space_is_stripped_by_the_field :
  url_input_value (lit " http://example.com") = lit "http://example.com"
  /\ ((run (TypeUrl (url_input_value (lit " http://example.com")))
        >> handleAddBookmark_request)
       (mkState (Some (mkSession Sample.alice)) (Some Sample.alice) []
          (lit "Example") [] false false None None [])).2
     = [OpInsert (lit "Example") (lit "http://example.com") (lit "alice")].
Proof. split; vm_compute; reflexivity. Qed.

(** *** Where the code and the wording agree *)

Lemma trimEnd_snoc (s : jsstring) (c : N) :
  trimEnd (s ++ [c]) = if isWhiteSpace c then trimEnd s else s ++ [c].
Proof.
  unfold trimEnd. rewrite rev_unit. simpl.
  destruct (isWhiteSpace c); [done|]. simpl. by rewrite rev_involutive.
Qed.

(** What [trimEnd] cuts off. *)
Lemma trimEnd_split (s : jsstring) : exists w, s = trimEnd s ++ w.
Proof.
  induction s as [|c s [w Hw]] using rev_ind; [by exists []|].
  rewrite trimEnd_snoc. destruct (isWhiteSpace c).
  - exists (w ++ [c]). by rewrite app_assoc, <- Hw.
  - exists []. by rewrite app_nil_r.
Qed.

(** A prefix that ends in a character [trim] keeps is untouched. *)
Lemma trimEnd_app (p : jsstring) (c : N) (s : jsstring) :
  isWhiteSpace c = false ->
  trimEnd ((p ++ [c]) ++ s) = (p ++ [c]) ++ trimEnd s.
Proof.
  intros Hc. induction s as [|d s IH] using rev_ind.
  - rewrite app_nil_r, trimEnd_snoc, Hc. by rewrite app_nil_r.
  - rewrite app_assoc, !trimEnd_snoc. destruct (isWhiteSpace d); [done|].
    by rewrite app_assoc.
Qed.

Lemma startsWith_app (p s : jsstring) : startsWith (p ++ s) p = true.
Proof. induction p as [|c p IH]; simpl; [done|]. by rewrite decide_True. Qed.

Lemma startsWith_inv (s p : jsstring) :
  startsWith s p = true -> exists r, s = p ++ r.
Proof.
  revert s. induction p as [|c p IH]; intros s H; simpl in *; [by exists s|].
  destruct s as [|d s]; [done|]. case_decide as Hd; [|done]. subst d.
  destruct (IH s H) as [r ->]. by exists r.
Qed.

Lemma startsWith_longer (s w p : jsstring) :
  startsWith s p = true -> startsWith (s ++ w) p = true.
Proof.
  intros H. destruct (startsWith_inv s p H) as [r ->].
  rewrite <- app_assoc. apply startsWith_app.
Qed.

(** The test on the field as typed is the test on its [trimEnd], for a
    prefix that ends in a character [trim] keeps. *)
Lemma startsWith_trimEnd (s p : jsstring) (c : N) :
  isWhiteSpace c = false ->
  startsWith (trimEnd s) (p ++ [c]) = startsWith s (p ++ [c]).
Proof.
  intros Hc. destruct (startsWith s (p ++ [c])) eqn:Hs.
  - destruct (startsWith_inv _ _ Hs) as [r ->].
    rewrite trimEnd_app by done. apply startsWith_app.
  - destruct (startsWith (trimEnd s) (p ++ [c])) eqn:Ht; [|done].
    destruct (trimEnd_split s) as [w Hw].
    rewrite Hw, (startsWith_longer _ w _ Ht) in Hs. done.
Qed.

(** On a URL typed with no white space in front, the URL the request
    carries is the one the specification words. *)
Lemma normalizedUrl_without_leading_space (url : jsstring) :
  trimStart url = url ->
  trim (normalizedUrl url) = spec_normalizedUrl url.
Proof.
  intros Hlead. unfold spec_normalizedUrl, normalizedUrl, trim. rewrite Hlead.
  change (lit "http://") with (lit "http:/" ++ [47%N]).
  change (lit "https://") with (lit "https:/" ++ [47%N]).
  rewrite !(startsWith_trimEnd url _ 47%N) by done.
  destruct (startsWith url (lit "http:/" ++ [47%N])
            || startsWith url (lit "https:/" ++ [47%N])); [by rewrite Hlead|].
  change (trimStart ((lit "https:/" ++ [47%N]) ++ url))
    with ((lit "https:/" ++ [47%N]) ++ url).
  by apply trimEnd_app.
Qed.

(** The two examples of the specification, both typed without spaces. *)
Lemma normalizedUrl_examples :
  trim (normalizedUrl (lit "example.com/page")) = lit "https://example.com/page"
  /\ trim (normalizedUrl (lit "http://example.com")) = lit "http://example.com".
Proof. split; vm_compute; reflexivity. Qed.

(** C6: with a title or a URL that is empty after trimming, create issues
    no request at all and leaves the list and both input fields as they
    are; for the signed-in user, to whom the form is shown, the validation
    message is set. *)
Theorem blank_field_is_rejected (st : State) :
  trim (title st) = [] \/ trim (url st) = [] ->
  (handleAddBookmark_request st).2 = []
  /\ bookmarks (handleAddBookmark_request st).1 = bookmarks st
  /\ title (handleAddBookmark_request st).1 = title st
  /\ url (handleAddBookmark_request st).1 = url st
  /\ (is_Some (user st) ->
      error (handleAddBookmark_request st).1
      = Some (lit "Please provide both a title and URL")).
Proof.
  intros Hblank. unfold handleAddBookmark_request.
  destruct (user st) as [u|].
  - assert (negb (truthy (trim (url st))) || negb (truthy (trim (title st))) = true)
      as ->.
    { destruct Hblank as [-> | ->]; simpl; [apply orb_true_r|done]. }
    done.
  - repeat split; try done; by intros [? ?].
Qed.

Lemma blank_field_is_rejected_witness :
  let st := mkState (Some (mkSession Sample.alice)) (Some Sample.alice)
              [Sample.first] (lit "  ") (lit "https://example.com") false
              false None (Some 7%nat) [7%nat] in
  (handleAddBookmark_request st).2 = []
  /\ bookmarks (handleAddBookmark_request st).1 = bookmarks st
  /\ title (handleAddBookmark_request st).1 = title st
  /\ url (handleAddBookmark_request st).1 = url st
  /\ (is_Some (user st) ->
      error (handleAddBookmark_request st).1
      = Some (lit "Please provide both a title and URL")).
Proof.
  intros st. apply (blank_field_is_rejected st). left. vm_compute. reflexivity.
Defined.

(** C10: with no user, create does nothing: no request, no message, the
    whole state as it was. *)
Theorem create_without_user_is_noop (st : State) :
  user st = None -> handleAddBookmark_request st = (st, []).
Proof. intros Hu. unfold handleAddBookmark_request. by rewrite Hu. Qed.

Lemma create_without_user_is_noop_witness :
  handleAddBookmark_request Sample.signed_out = (Sample.signed_out, []).
Proof. apply (create_without_user_is_noop Sample.signed_out). reflexivity. Defined.

(** ** Snapshot loader *)

(** C7: when the answer of the load carries an error, the list is left as
    it is and the message is set; when it carries none, the list is the
    returned records (none, when the answer has no data). This holds for
    the state the answer arrives in, and for a load run in one go. *)
Theorem load_failure_keeps_list (st : State) (r : SelectResponse) :
  (is_Some (select_error r) ->
     bookmarks (loadBookmarks_response r st).1 = bookmarks st
     /\ error (loadBookmarks_response r st).1 = Some (lit "Failed to load bookmarks")
     /\ bookmarks (loadBookmarks r st).1 = bookmarks st
     /\ error (loadBookmarks r st).1 = Some (lit "Failed to load bookmarks"))
  /\ (select_error r = None ->
     bookmarks (loadBookmarks_response r st).1 = default [] (data r)
     /\ bookmarks (loadBookmarks r st).1 = default [] (data r)).
Proof.
  unfold loadBookmarks, loadBookmarks_response, loadBookmarks_request.
  split.
  - intros [e He]. by rewrite He.
  - intros He. by rewrite He.
Qed.

Lemma load_failure_keeps_list_witness :
  let failed := mkSelectResponse None (Some (lit "permission denied")) in
  let loaded := mkSelectResponse (Some [Sample.second]) None in
  (bookmarks (loadBookmarks_response failed Sample.signed_in).1
     = [Sample.first; Sample.second]
   /\ error (loadBookmarks_response failed Sample.signed_in).1
     = Some (lit "Failed to load bookmarks"))
  /\ bookmarks (loadBookmarks_response loaded Sample.signed_in).1 = [Sample.second].
Proof.
  intros failed loaded. split.
  - destruct (proj1 (load_failure_keeps_list Sample.signed_in failed))
      as (Hl & He & _); [by eexists|]. by split.
  - by destruct (proj2 (load_failure_keeps_list Sample.signed_in loaded) eq_refl).
Defined.

(** ** Session tracker *)

(** C8, as stated, fails in its order: on a sign-out that reaches the
    listener with the feed still open, the listener's first operation is
    the clearing of the list and the removal of the channel follows it. *)
Lemma listener_clears_before_teardown :
  (onAuthStateChange None 0%nat Sample.signed_in).2
    = [OpSetBookmarks []; OpRemoveChannel 7%nat]
  /\ happens_before is_teardown is_clear
       (onAuthStateChange None 0%nat Sample.signed_in).2 = false
  /\ happens_before is_clear is_teardown
       (onAuthStateChange None 0%nat Sample.signed_in).2 = true.
Proof. repeat split. Qed.

(** C8, amended: on every transition to absent the listener clears the
    list and then, in the same run, tears the feed down when the
    reference holds a channel; afterwards the list is empty, the reference
    is empty and that channel is closed, whatever the list held, and no
    channel is open when the referenced one was the only one. *)
Theorem transition_to_absent (st : State) (c : Channel) :
  bookmarks (onAuthStateChange None c st).1 = []
  /\ session (onAuthStateChange None c st).1 = None
  /\ user (onAuthStateChange None c st).1 = None
  /\ realtimeChannelRef (onAuthStateChange None c st).1 = None
  /\ (forall ch, realtimeChannelRef st = Some ch ->
        (ch ∉ open_channels (onAuthStateChange None c st).1)
        /\ (onAuthStateChange None c st).2 = [OpSetBookmarks []; OpRemoveChannel ch])
  /\ (realtimeChannelRef st = None ->
        (onAuthStateChange None c st).2 = [OpSetBookmarks []])
  /\ (open_channels st ⊆ option_list (realtimeChannelRef st) ->
        open_channels (onAuthStateChange None c st).1 = []).
Proof.
  unfold onAuthStateChange, seq, teardownRealtime; simpl.
  destruct (realtimeChannelRef st) as [ch0|] eqn:Href; simpl.
  - repeat split; try done.
    + injection H as <-. rewrite list_elem_of_filter. by intros [? _].
    + injection H as <-. done.
    + intros Hsub.
      destruct (filter (fun c' => c' <> ch0) (open_channels st)) as [|x xs] eqn:Hf;
        [done|].
      assert (x ∈ filter (fun c' => c' <> ch0) (open_channels st)) as Hx
        by (rewrite Hf; left).
      apply list_elem_of_filter in Hx as [Hne Hin]. apply Hsub in Hin.
      by apply list_elem_of_singleton in Hin.
  - repeat split; try done.
    intros Hsub. destruct (open_channels st) as [|ch l]; [done|].
    exfalso. apply (elem_of_nil ch), Hsub. by left.
Qed.

Lemma transition_to_absent_witness :
  (7%nat ∉ open_channels (onAuthStateChange None 0%nat Sample.signed_in).1)
  /\ (onAuthStateChange None 0%nat Sample.signed_in).2
     = [OpSetBookmarks []; OpRemoveChannel 7%nat].
Proof.
  destruct (transition_to_absent Sample.signed_in 0%nat) as (_ & _ & _ & _ & H & _).
  apply (H 7%nat). reflexivity.
Defined.

(** The sign-out command itself tears the feed down before it asks the
    gateway to sign out, so on that path the listener finds the reference
    empty and only clears the list. *)
Lemma sign_out_command_tears_down_first (st : State) (c ch : Channel) :
  realtimeChannelRef st = Some ch ->
  ((handleSignOut >> onAuthStateChange None c) st).2
  = [OpRemoveChannel ch; OpSignOut; OpSetBookmarks []].
Proof.
  intros Href. unfold handleSignOut, onAuthStateChange, seq, teardownRealtime.
  simpl. rewrite Href. reflexivity.
Qed.

(** ** View projector *)

(** C9, as stated, fails: of two records made in one millisecond the later
    has the greater timestamp, but [Date] keeps whole milliseconds, the
    comparator finds no difference, and the view shows the two in the
    order of the list, the earlier first. *)
Lemma same_millisecond_is_shown_in_list_order :
  valid_dates IsoDate.getTime [Sample.fourth; Sample.fifth]
  /\ (exists t1 t2,
        IsoDate.micros (Bookmark.created_at Sample.fourth) = Some t1
        /\ IsoDate.micros (Bookmark.created_at Sample.fifth) = Some t2
        /\ (t1 < t2)%Z)
  /\ sortedBookmarks IsoDate.getTime
       (bookmarks (loadBookmarks_response
                     (mkSelectResponse (Some [Sample.fourth; Sample.fifth]) None)
                     Sample.signed_in).1)
     = [Sample.fourth; Sample.fifth]
  /\ sortedBookmarks IsoDate.getTime [Sample.fourth; Sample.fifth]
     <> [Sample.fifth; Sample.fourth].
Proof.
  split; [repeat constructor; vm_compute; by eexists|].
  split; [eexists _, _; repeat split; vm_compute; reflexivity|].
  split; [vm_compute; reflexivity|].
  vm_compute. discriminate.
Qed.

Section ProjectorFacts.
Variable getTime : jsstring -> option Z.

#[local] Abbreviation newer_first := (newer_or_same getTime).
#[local] Abbreviation cmp := (SortCompare (by_created_at_desc getTime)).
#[local] Abbreviation dated := (fun b => is_Some (getTime (Bookmark.created_at b))).

Lemma SortCompare_dated (a b : Bookmark.t) :
  dated a -> dated b -> cmp a b = (created getTime b - created getTime a)%Z.
Proof.
  intros [ta Ha] [tb Hb]. unfold SortCompare, by_created_at_desc, created.
  by rewrite Ha, Hb.
Qed.

Lemma sort_insert_Permutation (x : Bookmark.t) (s : list Bookmark.t) :
  Permutation (sort_insert (by_created_at_desc getTime) x s) (x :: s).
Proof.
  induction s as [|y s IH]; simpl; [done|].
  destruct (0 <? cmp x y)%Z; [|done].
  rewrite IH. apply perm_swap.
Qed.

Lemma Array_sort_Permutation (l : list Bookmark.t) :
  Permutation (Array_sort (by_created_at_desc getTime) l) l.
Proof.
  induction l as [|x l IH]; simpl; [done|].
  by rewrite sort_insert_Permutation, IH.
Qed.

Lemma sort_insert_sorted (x : Bookmark.t) (s : list Bookmark.t) :
  dated x -> Forall dated s ->
  StronglySorted newer_first s ->
  StronglySorted newer_first (sort_insert (by_created_at_desc getTime) x s).
Proof.
  intros Hx Hs Hsorted. induction Hsorted as [|y s Hsorted IH Hy]; simpl.
  - repeat constructor.
  - apply Forall_cons in Hs as [Hdy Hs].
    rewrite (SortCompare_dated x y Hx Hdy).
    destruct (0 <? created getTime y - created getTime x)%Z eqn:Hlt.
    + apply Z.ltb_lt in Hlt. constructor; [by apply IH|].
      rewrite sort_insert_Permutation. constructor; [|done].
      unfold newer_or_same. lia.
    + apply Z.ltb_ge in Hlt. constructor; [by constructor|].
      constructor; [unfold newer_or_same; lia|].
      eapply Forall_impl; [exact Hy|]. unfold newer_or_same. intros z Hz. lia.
Qed.

Lemma Array_sort_sorted (l : list Bookmark.t) :
  Forall dated l ->
  StronglySorted newer_first (Array_sort (by_created_at_desc getTime) l).
Proof.
  induction l as [|x l IH]; intros Hl; simpl; [constructor|].
  apply Forall_cons in Hl as [Hx Hl].
  apply sort_insert_sorted; [done| |by apply IH].
  by rewrite Array_sort_Permutation.
Qed.

(** Records of one timestamp keep the order they have in the list. *)
Lemma sort_insert_stable (t : Z) (x : Bookmark.t) (s : list Bookmark.t) :
  dated x -> Forall dated s ->
  StronglySorted newer_first s ->
  filter (fun b => created getTime b = t) (sort_insert (by_created_at_desc getTime) x s)
  = filter (fun b => created getTime b = t) (x :: s).
Proof.
  intros Hx Hs Hsorted. induction Hsorted as [|y s Hsorted IH Hy]; simpl; [done|].
  apply Forall_cons in Hs as [Hdy Hs].
  rewrite (SortCompare_dated x y Hx Hdy).
  destruct (0 <? created getTime y - created getTime x)%Z eqn:Hlt; [|done].
  apply Z.ltb_lt in Hlt.
  rewrite (filter_cons _ y (sort_insert _ x s)), (IH Hs).
  rewrite !filter_cons.
  repeat case_decide; try done; lia.
Qed.

Lemma Array_sort_stable (t : Z) (l : list Bookmark.t) :
  Forall dated l ->
  filter (fun b => created getTime b = t) (Array_sort (by_created_at_desc getTime) l)
  = filter (fun b => created getTime b = t) l.
Proof.
  induction l as [|x l IH]; intros Hl; simpl; [done|].
  apply Forall_cons in Hl as [Hx Hl].
  rewrite sort_insert_stable; [| done | by rewrite Array_sort_Permutation
                               | by apply Array_sort_sorted].
  rewrite !filter_cons. by rewrite (IH Hl).
Qed.

(** C9, amended: the displayed view holds the records of the list, each
    as often as the list does, ordered by the time value [Date] gives
    their timestamps, whole milliseconds, the greatest first, records of
    one time value in the order of the list; the timestamps are dates, as
    those of the backend are. In the scenario, a load of [[b1; b2]] with
    the time value of [b2] the greater is shown as [[b2; b1]], and after
    the delete event for [b2] as [[b1]]. *)
Theorem sortedBookmarks_newest_first (st : State) :
  valid_dates getTime (bookmarks st) ->
  (Permutation (sortedBookmarks getTime (bookmarks st)) (bookmarks st)
   /\ StronglySorted newer_first (sortedBookmarks getTime (bookmarks st))
   /\ forall t, filter (fun b => created getTime b = t)
                  (sortedBookmarks getTime (bookmarks st))
                = filter (fun b => created getTime b = t) (bookmarks st))
  /\ forall b1 b2,
       valid_dates getTime [b1; b2] ->
       (created getTime b1 < created getTime b2)%Z ->
       Bookmark.id b1 <> Bookmark.id b2 ->
       let loaded := (loadBookmarks_response (mkSelectResponse (Some [b1; b2]) None) st).1 in
       let deleted := (postgres_changes (DELETE (Bookmark.id b2)) loaded).1 in
       sortedBookmarks getTime (bookmarks loaded) = [b2; b1]
       /\ sortedBookmarks getTime (bookmarks deleted) = [b1].
Proof.
  intros Hvalid. split.
  - split; [apply Array_sort_Permutation|].
    split; [by apply Array_sort_sorted|].
    intros t. by apply Array_sort_stable.
  - intros b1 b2 Hv Hlt Hne. simpl.
    apply Forall_cons in Hv as [H1 Hv]. apply Forall_cons in Hv as [H2 _].
    split.
    + unfold sortedBookmarks; simpl.
      rewrite (SortCompare_dated b1 b2 H1 H2).
      by rewrite (proj2 (Z.ltb_lt _ _)) by lia.
    + rewrite filter_cons_True by done.
      rewrite filter_cons_False; [|intros Hn; by apply Hn]. done.
Qed.
End ProjectorFacts.

Lemma sortedBookmarks_newest_first_witness :
  sortedBookmarks IsoDate.getTime [Sample.first; Sample.second]
    = [Sample.second; Sample.first]
  /\ sortedBookmarks IsoDate.getTime
       (on_change (DELETE (lit "2")) [Sample.first; Sample.second])
     = [Sample.first].
Proof.
  assert (valid_dates IsoDate.getTime [Sample.first; Sample.second]) as Hvalid.
  { repeat constructor; vm_compute; by eexists. }
  destruct (sortedBookmarks_newest_first IsoDate.getTime Sample.signed_in Hvalid)
    as [_ Hscenario].
  apply (Hscenario Sample.first Sample.second Hvalid).
  - vm_compute. reflexivity.
  - vm_compute. discriminate.
Defined.

(** * Further properties of the component *)

(** ** Feed events, one by one *)

Lemma on_change_update_id (new b : Bookmark.t) :
  Bookmark.id (if decide (Bookmark.id b = Bookmark.id new) then new else b)
  = Bookmark.id b.
Proof. by case_decide. Qed.

Lemma delete_update_commute (i : jsstring) (new : Bookmark.t) (l : list Bookmark.t) :
  on_change (DELETE i) (on_change (UPDATE new) l)
  = on_change (UPDATE new) (on_change (DELETE i) l).
Proof.
  simpl. induction l as [|b l IH]; [done|].
  rewrite fmap_cons, !filter_cons, on_change_update_id.
  case_decide; [|done]. by rewrite fmap_cons, IH.
Qed.

Lemma delete_delete_commute (i j : jsstring) (l : list Bookmark.t) :
  on_change (DELETE i) (on_change (DELETE j) l)
  = on_change (DELETE j) (on_change (DELETE i) l).
Proof.
  simpl. induction l as [|b l IH]; [done|].
  rewrite !filter_cons. repeat case_decide; rewrite ?filter_cons;
    repeat case_decide; try done; by rewrite IH.
Qed.

Lemma update_update_commute (u v : Bookmark.t) (l : list Bookmark.t) :
  Bookmark.id u <> Bookmark.id v ->
  on_change (UPDATE u) (on_change (UPDATE v) l)
  = on_change (UPDATE v) (on_change (UPDATE u) l).
Proof.
  intros Hne. simpl. rewrite <- !list_fmap_compose.
  apply list_fmap_ext. intros _ b _. simpl.
  repeat case_decide; congruence.
Qed.

Lemma on_change_delete_gone (i : jsstring) (l : list Bookmark.t) :
  i ∉ ids (on_change (DELETE i) l).
Proof.
  unfold ids. intros Hin. apply list_elem_of_fmap in Hin as (b & -> & Hb).
  simpl in Hb. by apply list_elem_of_filter in Hb as [Hb _].
Qed.

(** A delete event takes every record of its identifier out, whether there
    is none, one or several, and nothing else: the other records stay, in
    their order; a second delivery changes nothing. *)
Theorem delete_event_removes_the_identifier (i : jsstring) (l : list Bookmark.t) :
  (i ∉ ids (on_change (DELETE i) l))
  /\ (forall b, b ∈ on_change (DELETE i) l <-> b ∈ l /\ Bookmark.id b <> i)
  /\ on_change (DELETE i) l `sublist_of` l
  /\ on_change (DELETE i) (on_change (DELETE i) l) = on_change (DELETE i) l.
Proof.
  assert (forall b, b ∈ on_change (DELETE i) l <-> b ∈ l /\ Bookmark.id b <> i)
    as Hmem.
  { intros b. simpl. rewrite list_elem_of_filter. tauto. }
  split; [apply on_change_delete_gone|]. split; [done|]. split.
  - apply sublist_filter.
  - apply on_change_delete_absent, on_change_delete_gone.
Qed.

Lemma delete_event_removes_the_identifier_witness :
  Sample.second ∈ on_change (DELETE (lit "1")) [Sample.first; Sample.second].
Proof.
  destruct (delete_event_removes_the_identifier (lit "1") [Sample.first; Sample.second])
    as (_ & Hmem & _).
  apply Hmem. split; by_compute.
Defined.

(** An update event works in place: the list keeps its length and the
    order of its identifiers, every record of the identifier becomes the
    payload, the records of other identifiers are untouched, and a second
    delivery changes nothing. *)
Theorem update_event_works_in_place (new : Bookmark.t) (l : list Bookmark.t) :
  length (on_change (UPDATE new) l) = length l
  /\ ids (on_change (UPDATE new) l) = ids l
  /\ (forall b, b ∈ on_change (UPDATE new) l ->
        Bookmark.id b = Bookmark.id new -> b = new)
  /\ on_change (DELETE (Bookmark.id new)) (on_change (UPDATE new) l)
     = on_change (DELETE (Bookmark.id new)) l
  /\ on_change (UPDATE new) (on_change (UPDATE new) l) = on_change (UPDATE new) l.
Proof.
  split; [simpl; apply length_fmap|].
  split; [apply on_change_update_ids|].
  split; [|split].
  - intros b Hb. simpl in Hb.
    apply list_elem_of_fmap in Hb as (b0 & -> & _).
    by case_decide.
  - rewrite delete_update_commute.
    apply on_change_update_absent, on_change_delete_gone.
  - simpl. rewrite <- list_fmap_compose. apply list_fmap_ext.
    intros _ b _. simpl. repeat case_decide; congruence.
Qed.

Lemma update_event_works_in_place_witness :
  hd Sample.second (on_change (UPDATE Sample.first_again) [Sample.first; Sample.second])
  = Sample.first_again.
Proof.
  destruct (update_event_works_in_place Sample.first_again [Sample.first; Sample.second])
    as (_ & _ & Hall & _).
  apply Hall; [by_compute|reflexivity].
Defined.

(** Two events about different identifiers can be applied in either order,
    unless both are inserts (two inserts end in the order they came). *)
Theorem events_on_different_identifiers_commute (e1 e2 : Payload) (l : list Bookmark.t) :
  event_id e1 <> event_id e2 ->
  is_INSERT e1 && is_INSERT e2 = false ->
  on_change e1 (on_change e2 l) = on_change e2 (on_change e1 l).
Proof.
  assert (forall new i, Bookmark.id new <> i ->
            on_change (DELETE i) (on_change (INSERT new) l)
            = on_change (INSERT new) (on_change (DELETE i) l)) as Hid.
  { intros new i Hne. simpl. rewrite filter_app.
    by rewrite (filter_cons_True _ new []). }
  assert (forall new u, Bookmark.id new <> Bookmark.id u ->
            on_change (UPDATE u) (on_change (INSERT new) l)
            = on_change (INSERT new) (on_change (UPDATE u) l)) as Hiu.
  { intros new u Hne. simpl. rewrite fmap_app. simpl. by rewrite decide_False. }
  destruct e1 as [n1|i1|u1], e2 as [n2|i2|u2]; simpl event_id; intros Hne Hins;
    try discriminate Hins.
  - symmetry. by apply Hid.
  - symmetry. by apply Hiu.
  - by apply Hid.
  - apply delete_delete_commute.
  - apply delete_update_commute.
  - by apply Hiu.
  - symmetry. apply delete_update_commute.
  - by apply update_update_commute.
Qed.

Lemma events_on_different_identifiers_commute_witness :
  on_change (DELETE (lit "2")) (on_change (UPDATE Sample.first_again) [Sample.first; Sample.second])
  = on_change (UPDATE Sample.first_again) (on_change (DELETE (lit "2")) [Sample.first; Sample.second]).
Proof.
  apply (events_on_different_identifiers_commute
           (DELETE (lit "2")) (UPDATE Sample.first_again)).
  - vm_compute. discriminate.
  - reflexivity.
Defined.

(** Insert and delete undo each other: the delete event for a record that
    an insert event brought in, with an identifier that was not in the
    list, gives the list back as it was. *)
Theorem insert_then_delete_restores (new : Bookmark.t) (l : list Bookmark.t) :
  Bookmark.id new ∉ ids l ->
  on_change (DELETE (Bookmark.id new)) (on_change (INSERT new) l) = l.
Proof.
  intros Hfresh. simpl. rewrite filter_app.
  rewrite (filter_cons_False _ new []); [|intros Hn; by apply Hn].
  rewrite filter_nil, app_nil_r. by apply on_change_delete_absent.
Qed.

Lemma insert_then_delete_restores_witness :
  on_change (DELETE (Bookmark.id Sample.third))
    (on_change (INSERT Sample.third) [Sample.first; Sample.second])
  = [Sample.first; Sample.second].
Proof.
  apply (insert_then_delete_restores Sample.third [Sample.first; Sample.second]).
  by_compute.
Defined.

(** ** The view, and the view after an event *)

Section ViewFacts.
Variable getTime : jsstring -> option Z.

#[local] Abbreviation has_date := (fun b => is_Some (getTime (Bookmark.created_at b))).
#[local] Abbreviation view := (sortedBookmarks getTime).

Lemma Forall_on_change_delete (P : Bookmark.t -> Prop) (i : jsstring) (l : list Bookmark.t) :
  Forall P l -> Forall P (filter (fun b => Bookmark.id b <> i) l).
Proof.
  rewrite !Forall_forall. intros H b Hb.
  apply list_elem_of_filter in Hb as [_ Hb]. by apply H.
Qed.

(** A record that is not older than any record of the view goes to its
    front. *)
Lemma sort_insert_front (x : Bookmark.t) (s : list Bookmark.t) :
  has_date x -> Forall has_date s ->
  Forall (newer_or_same getTime x) s ->
  sort_insert (by_created_at_desc getTime) x s = x :: s.
Proof.
  intros Hx Hs Hnew. destruct s as [|y s]; [done|]. simpl.
  apply Forall_cons in Hs as [Hy _]. apply Forall_cons in Hnew as [Hxy _].
  rewrite (SortCompare_dated getTime x y Hx Hy).
  unfold newer_or_same in Hxy. by rewrite (proj2 (Z.ltb_ge _ _)) by lia.
Qed.

Lemma delete_sort_insert (i : jsstring) (x : Bookmark.t) (s : list Bookmark.t) :
  has_date x -> Forall has_date s ->
  StronglySorted (newer_or_same getTime) s ->
  on_change (DELETE i) (sort_insert (by_created_at_desc getTime) x s)
  = if decide (Bookmark.id x <> i)
    then sort_insert (by_created_at_desc getTime) x (on_change (DELETE i) s)
    else on_change (DELETE i) s.
Proof.
  intros Hx Hs Hsorted.
  induction Hsorted as [|y s Hsorted IH Hy]; simpl.
  - rewrite filter_cons, filter_nil. by case_decide.
  - apply Forall_cons in Hs as [Hdy Hs]. specialize (IH Hs). simpl in IH.
    rewrite (SortCompare_dated getTime x y Hx Hdy).
    destruct (0 <? created getTime y - created getTime x)%Z eqn:Hlt.
    + rewrite (filter_cons _ y (sort_insert _ x s)), IH, (filter_cons _ y s).
      destruct (decide (Bookmark.id x <> i)), (decide (Bookmark.id y <> i));
        simpl; try done.
      by rewrite (SortCompare_dated getTime x y Hx Hdy), Hlt.
    + apply Z.ltb_ge in Hlt.
      rewrite (filter_cons _ x (y :: s)).
      destruct (decide (Bookmark.id x <> i)) as [Hxi|Hxi]; [|done].
      symmetry. apply sort_insert_front; [done| |].
      * apply Forall_on_change_delete. by constructor.
      * apply Forall_on_change_delete.
        constructor; [unfold newer_or_same; lia|].
        eapply Forall_impl; [exact Hy|]. unfold newer_or_same. intros z Hz. lia.
Qed.

(** The view never loses or invents a record, whatever the timestamps
    are: it holds each record as often as the list does. So the count
    that is shown is the length of the list, and the view is empty exactly
    when the list is. *)
Theorem view_holds_the_records_of_the_list (l : list Bookmark.t) :
  Permutation (view l) l
  /\ length (view l) = length l
  /\ (view l = [] <-> l = []).
Proof.
  pose proof (Array_sort_Permutation getTime l) as Hperm.
  split; [done|]. split; [by apply Permutation_length|].
  split; intros Hnil.
  - unfold sortedBookmarks in Hnil. rewrite Hnil in Hperm.
    by apply Permutation_nil in Hperm.
  - by subst l.
Qed.

(** A list that already is newest first is shown as it is, as is the
    snapshot the backend returns in that order; so sorting the view again
    changes nothing. *)
Theorem newest_first_list_is_shown_as_is (l : list Bookmark.t) :
  valid_dates getTime l ->
  (StronglySorted (newer_or_same getTime) l -> view l = l)
  /\ view (view l) = view l.
Proof.
  assert (forall k, valid_dates getTime k ->
            StronglySorted (newer_or_same getTime) k -> view k = k) as Hid.
  { intros k Hk Hsorted. unfold sortedBookmarks.
    induction Hsorted as [|x k Hsorted IH Hx]; [done|]. simpl.
    apply Forall_cons in Hk as [Hdx Hk]. rewrite (IH Hk).
    by apply sort_insert_front. }
  intros Hvalid. split; [by apply Hid|].
  apply Hid.
  - unfold valid_dates, sortedBookmarks. by rewrite Array_sort_Permutation.
  - by apply Array_sort_sorted.
Qed.

(** A delete event takes the record out of the view and moves nothing:
    the view of the list after the event is the view before it without the
    records of that identifier. *)
Theorem view_after_delete (i : jsstring) (l : list Bookmark.t) :
  valid_dates getTime l ->
  view (on_change (DELETE i) l) = on_change (DELETE i) (view l).
Proof.
  unfold sortedBookmarks.
  induction l as [|x l IH]; intros Hvalid; [done|].
  apply Forall_cons in Hvalid as [Hx Hl]. specialize (IH Hl).
  change (Array_sort (by_created_at_desc getTime) (x :: l))
    with (sort_insert (by_created_at_desc getTime) x
            (Array_sort (by_created_at_desc getTime) l)).
  rewrite delete_sort_insert;
    [| done | by rewrite Array_sort_Permutation | by apply Array_sort_sorted].
  change (on_change (DELETE i) (x :: l))
    with (filter (fun b => Bookmark.id b <> i) (x :: l)).
  rewrite filter_cons. case_decide; [|done]. simpl in *. by rewrite <- IH.
Qed.

(** The count that is shown goes up by one with every insert event, stays
    with every update event, and goes down by one with the delete event of
    an identifier that is in a list of distinct identifiers. *)
Theorem shown_count_follows_the_events (new : Bookmark.t) (i : jsstring) (l : list Bookmark.t) :
  length (view (on_change (INSERT new) l)) = S (length l)
  /\ length (view (on_change (UPDATE new) l)) = length l
  /\ (NoDup (ids l) -> i ∈ ids l ->
      S (length (view (on_change (DELETE i) l))) = length l).
Proof.
  assert (forall k, length (view k) = length k) as Hlen
    by (intros k; apply Permutation_length, Array_sort_Permutation).
  rewrite !Hlen. split; [|split].
  - simpl. rewrite length_app. simpl. lia.
  - simpl. apply length_fmap.
  - simpl. unfold ids. induction l as [|b l IH]; intros Hnd Hin.
    + by apply elem_of_nil in Hin.
    + rewrite fmap_cons in Hnd, Hin. apply NoDup_cons in Hnd as [Hb Hnd].
      rewrite filter_cons. case_decide as Hbi.
      * simpl. f_equal. apply IH; [done|].
        apply elem_of_cons in Hin as [->|Hin]; [done|done].
      * subst i.
        change (filter (fun b0 => Bookmark.id b0 <> Bookmark.id b) l)
          with (on_change (DELETE (Bookmark.id b)) l).
        by rewrite on_change_delete_absent.
Qed.
End ViewFacts.

Lemma view_holds_the_records_of_the_list_witness :
  sortedBookmarks IsoDate.getTime [] = [].
Proof.
  destruct (view_holds_the_records_of_the_list IsoDate.getTime []) as (_ & _ & Hnil).
  by apply Hnil.
Defined.

Lemma newest_first_list_is_shown_as_is_witness :
  sortedBookmarks IsoDate.getTime [Sample.second; Sample.first]
  = [Sample.second; Sample.first].
Proof.
  assert (valid_dates IsoDate.getTime [Sample.second; Sample.first]) as Hvalid.
  { repeat constructor; vm_compute; by eexists. }
  destruct (newest_first_list_is_shown_as_is IsoDate.getTime _ Hvalid)
    as [Hsorted _].
  apply Hsorted. repeat constructor. vm_compute. discriminate.
Defined.

Lemma view_after_delete_witness :
  sortedBookmarks IsoDate.getTime
    (on_change (DELETE (lit "1")) [Sample.first; Sample.second; Sample.third])
  = on_change (DELETE (lit "1"))
      (sortedBookmarks IsoDate.getTime [Sample.first; Sample.second; Sample.third]).
Proof.
  apply (view_after_delete IsoDate.getTime).
  repeat constructor; vm_compute; by eexists.
Defined.

Lemma shown_count_follows_the_events_witness :
  S (length (sortedBookmarks IsoDate.getTime
               (on_change (DELETE (lit "2")) [Sample.first; Sample.second])))
  = length [Sample.first; Sample.second].
Proof.
  destruct (shown_count_follows_the_events IsoDate.getTime Sample.third (lit "2")
              [Sample.first; Sample.second]) as (_ & _ & Hdel).
  apply Hdel; by_compute.
Defined.

(** ** Create *)

Lemma trimStart_length (s : jsstring) : (length (trimStart s) <= length s)%nat.
Proof.
  induction s as [|c s IH]; simpl; [done|].
  destruct (isWhiteSpace c); simpl; lia.
Qed.

Lemma trimStart_fixed (s : jsstring) :
  trimStart s = s <-> match s with [] => True | c :: _ => isWhiteSpace c = false end.
Proof.
  destruct s as [|c s]; simpl; [done|].
  destruct (isWhiteSpace c) eqn:Hc; [|done].
  split; [|done]. intros H. pose proof (trimStart_length s) as Hlen.
  rewrite H in Hlen. simpl in Hlen. lia.
Qed.

Lemma trimStart_idempotent (s : jsstring) : trimStart (trimStart s) = trimStart s.
Proof.
  induction s as [|c s IH]; simpl; [done|].
  destruct (isWhiteSpace c) eqn:Hc; [done|]. simpl. by rewrite Hc.
Qed.

Lemma trimEnd_idempotent (s : jsstring) : trimEnd (trimEnd s) = trimEnd s.
Proof. unfold trimEnd. by rewrite rev_involutive, trimStart_idempotent. Qed.

Lemma trimStart_trimEnd (s : jsstring) :
  trimStart s = s -> trimStart (trimEnd s) = trimEnd s.
Proof.
  intros Hs. apply trimStart_fixed. apply trimStart_fixed in Hs.
  destruct (trimEnd_split s) as [w Hw].
  destruct (trimEnd s) as [|c r]; [done|]. by rewrite Hw in Hs.
Qed.

Lemma trim_idempotent (s : jsstring) : trim (trim s) = trim s.
Proof.
  unfold trim.
  rewrite (trimStart_trimEnd (trimStart s)) by apply trimStart_idempotent.
  apply trimEnd_idempotent.
Qed.

Lemma has_scheme_trimStart (url : jsstring) :
  has_scheme url = true -> trimStart url = url.
Proof.
  intros H. apply trimStart_fixed. destruct url as [|c url]; [done|].
  unfold has_scheme in H. apply orb_prop in H as [H|H];
    simpl in H; case_decide; try done; by subst c.
Qed.

Lemma has_scheme_trim (url : jsstring) :
  has_scheme url = true -> has_scheme (trim url) = true.
Proof.
  intros H. unfold trim. rewrite (has_scheme_trimStart url H).
  unfold has_scheme in *.
  change (lit "http://") with (lit "http:/" ++ [47%N]) in *.
  change (lit "https://") with (lit "https:/" ++ [47%N]) in *.
  by rewrite !(startsWith_trimEnd url _ 47%N).
Qed.

Lemma normalizedUrl_has_scheme (url : jsstring) :
  has_scheme (normalizedUrl url) = true.
Proof.
  unfold normalizedUrl.
  destruct (startsWith url (lit "http://") || startsWith url (lit "https://"))
    eqn:Htest; [done|].
  unfold has_scheme. by rewrite (startsWith_app (lit "https://") url), orb_true_r.
Qed.

(** [normalizedUrl] always gives a URL with one of the two schemes in
    front, keeps what was typed as the rest of it, leaves a URL that has
    a scheme as it is, and so changes nothing when it is applied twice. *)
Theorem normalizedUrl_gives_a_scheme_once (url : jsstring) :
  has_scheme (normalizedUrl url) = true
  /\ (exists front, normalizedUrl url = front ++ url)
  /\ (has_scheme url = true -> normalizedUrl url = url)
  /\ normalizedUrl (normalizedUrl url) = normalizedUrl url.
Proof.
  assert (forall u, has_scheme u = true -> normalizedUrl u = u) as Hkeep.
  { intros u Hu. unfold normalizedUrl. unfold has_scheme in Hu. by rewrite Hu. }
  pose proof (normalizedUrl_has_scheme url) as Hscheme.
  split; [done|]. split; [|split; [apply Hkeep|by apply Hkeep]].
  unfold normalizedUrl.
  destruct (startsWith url (lit "http://") || startsWith url (lit "https://")).
  - by exists [].
  - by exists (lit "https://").
Qed.

Lemma normalizedUrl_gives_a_scheme_once_witness :
  normalizedUrl (lit "https://example.com") = lit "https://example.com".
Proof.
  destruct (normalizedUrl_gives_a_scheme_once (lit "https://example.com"))
    as (_ & _ & Hkeep & _).
  apply Hkeep. reflexivity.
Defined.

(** With a user and with a title and a URL that are not blank, create
    issues exactly one insert request and nothing else. The request
    carries the identifier of the user, the trimmed title, which is not
    empty and has no white space left at its ends, and a URL that starts
    with one of the two schemes and has none at its ends either. The
    saving flag is raised, the message is cleared, and the list and the
    two fields are as before. *)
Theorem accepted_create_issues_one_insert (st : State) (u : User) :
  user st = Some u ->
  trim (title st) <> [] ->
  trim (url st) <> [] ->
  exists sent_title sent_url,
    (handleAddBookmark_request st).2 = [OpInsert sent_title sent_url (user_id u)]
    /\ sent_title = trim (title st)
    /\ trim sent_title = sent_title
    /\ has_scheme sent_url = true
    /\ trim sent_url = sent_url
    /\ saving (handleAddBookmark_request st).1 = true
    /\ error (handleAddBookmark_request st).1 = None
    /\ bookmarks (handleAddBookmark_request st).1 = bookmarks st
    /\ title (handleAddBookmark_request st).1 = title st
    /\ url (handleAddBookmark_request st).1 = url st.
Proof.
  intros Hu Ht Hurl.
  exists (trim (title st)), (trim (normalizedUrl (url st))).
  unfold handleAddBookmark_request. rewrite Hu.
  destruct (trim (url st)) as [|c1 r1] eqn:E1; [done|].
  destruct (trim (title st)) as [|c2 r2] eqn:E2; [done|].
  simpl. rewrite <- E2.
  repeat split; try done.
  - apply trim_idempotent.
  - apply has_scheme_trim, normalizedUrl_has_scheme.
  - apply trim_idempotent.
Qed.

Lemma accepted_create_issues_one_insert_witness :
  let st := mkState (Some (mkSession Sample.alice)) (Some Sample.alice)
              [Sample.first] (lit " Example ") (lit "example.com/page ") false
              false (Some (lit "Failed to load bookmarks")) (Some 7%nat) [7%nat] in
  exists sent_title sent_url,
    (handleAddBookmark_request st).2
    = [OpInsert sent_title sent_url (lit "alice")]
    /\ sent_title = lit "Example"
    /\ has_scheme sent_url = true
    /\ error (handleAddBookmark_request st).1 = None.
Proof.
  intros st.
  destruct (accepted_create_issues_one_insert st Sample.alice)
    as (t & u & Htrace & Ht & _ & Hu & _ & _ & Herr & _);
    [reflexivity|vm_compute; discriminate..|].
  exists t, u. split; [exact Htrace|]. split; [by rewrite Ht|].
  split; [exact Hu|exact Herr].
Defined.

(** A create from request to answer. When the gateway accepts, both
    fields are emptied; when it refuses, what was typed is kept and the
    message is "Failed to save bookmark". Either way the saving flag is
    down again and the list is as before: it changes only when the feed
    delivers the insert event. *)
Theorem create_round (st : State) (err : option jsstring) :
  is_Some (user st) ->
  trim (title st) <> [] ->
  trim (url st) <> [] ->
  let after := ((handleAddBookmark_request >> handleAddBookmark_response err) st).1 in
  saving after = false
  /\ bookmarks after = bookmarks st
  /\ match err with
     | None => title after = [] /\ url after = [] /\ error after = None
     | Some _ =>
         title after = title st /\ url after = url st
         /\ error after = Some (lit "Failed to save bookmark")
     end.
Proof.
  intros [u Hu] Ht Hurl. unfold handleAddBookmark_request, seq. rewrite Hu.
  destruct (trim (url st)) as [|c1 r1] eqn:E1; [done|].
  destruct (trim (title st)) as [|c2 r2] eqn:E2; [done|].
  by destruct err.
Qed.

Lemma create_round_witness :
  let st := mkState (Some (mkSession Sample.alice)) (Some Sample.alice)
              [Sample.first] (lit "Example") (lit "example.com") false
              false None (Some 7%nat) [7%nat] in
  let after := ((handleAddBookmark_request >> handleAddBookmark_response None) st).1 in
  saving after = false
  /\ bookmarks after = [Sample.first]
  /\ title after = [] /\ url after = [] /\ error after = None.
Proof.
  intros st.
  apply (create_round st None); [by eexists|vm_compute; discriminate..].
Defined.

(** ** The component over any sequence of actions *)

Lemma seq_state (f g : Step) (st : State) : ((f >> g) st).1 = (g (f st).1).1.
Proof. unfold seq. destruct (f st) as [st1 t1]. simpl. by destruct (g st1). Qed.

Lemma seq_trace (f g : Step) (st : State) :
  ((f >> g) st).2 = (f st).2 ++ (g (f st).1).2.
Proof. unfold seq. destruct (f st) as [st1 t1]. simpl. by destruct (g st1). Qed.

(** What holds at the start and is kept by every action holds after any
    sequence of actions. *)
Lemma run_all_invariant (Inv : State -> Prop) :
  (forall a st, Inv st -> Inv (run a st).1) ->
  forall actions st, Inv st -> Inv (run_all actions st).1.
Proof.
  intros Hstep actions. induction actions as [|a actions IH]; intros st Hst;
    [done|].
  simpl. rewrite seq_state. by apply IH, Hstep.
Qed.

(** Open every entry point down to the setters. *)
Ltac open_steps :=
  unfold run, init_session, init_loaded, onAuthStateChange, cleanup,
    loadBookmarks_response, loadBookmarks_request, postgres_changes,
    handleSignIn_request, handleSignIn_response, handleSignOut,
    handleAddBookmark_request, handleAddBookmark_response,
    handleDeleteBookmark_request, handleDeleteBookmark_response,
    setupRealtime, teardownRealtime, setBookmarks, seq;
  simpl.

Lemma count_ops_app (p : Op -> bool) (t1 t2 : list Op) :
  count_ops p (t1 ++ t2) = (count_ops p t1 + count_ops p t2)%nat.
Proof. unfold count_ops. by rewrite List.filter_app, length_app. Qed.

(** Every case of every entry point, on a state given by its fields. *)
Ltac action_cases a st :=
  destruct st as [sess usr bms ttl u ld sv er ref open]; simpl in *;
  destruct a as [m s|[d [e|]] c|s c| |[d [e|]]|e|v|v| |err| | |err|i|err];
  try destruct m; try destruct s; try destruct err;
  destruct ref as [old|]; destruct usr; open_steps;
  repeat case_match; simpl in *.

Lemma run_one_feed (a : Action) (st : State) :
  one_feed st ->
  one_feed (run a st).1
  /\ (count_ops is_subscribe (run a st).2 + length (open_channels st)
      = count_ops is_teardown (run a st).2 + length (open_channels (run a st).1))%nat.
Proof.
  unfold one_feed. destruct st as [sess usr bms ttl u ld sv er ref open]. simpl.
  intros ->.
  destruct a as [m s|[d [e|]] c|s c| |[d [e|]]|e|v|v| |err| | |err|i|err];
    try destruct m; try destruct s; try destruct err;
    destruct ref as [old|]; destruct usr; open_steps;
    repeat case_match; simpl;
    rewrite ?filter_cons, ?filter_nil; repeat case_decide; try done.
Qed.

Lemma run_all_one_feed (actions : list Action) (st : State) :
  one_feed st ->
  one_feed (run_all actions st).1
  /\ (count_ops is_subscribe (run_all actions st).2 + length (open_channels st)
      = count_ops is_teardown (run_all actions st).2
        + length (open_channels (run_all actions st).1))%nat.
Proof.
  revert st. induction actions as [|a actions IH]; intros st Hst; [done|].
  simpl. rewrite seq_state, seq_trace, !count_ops_app.
  destruct (run_one_feed a st Hst) as [H1 H2].
  destruct (IH _ H1) as [H3 H4]. split; [done|]. lia.
Qed.

(** Whatever happens, in whatever order, at most one channel is open, and
    it is the one the reference holds: every channel the component has
    subscribed was removed again before the next was opened. *)
Theorem at_most_one_feed_is_open (actions : list Action) :
  one_feed (run_all actions initial).1
  /\ (length (open_channels (run_all actions initial).1) <= 1)%nat
  /\ count_ops is_subscribe (run_all actions initial).2
     = (count_ops is_teardown (run_all actions initial).2
        + length (open_channels (run_all actions initial).1))%nat.
Proof.
  destruct (run_all_one_feed actions initial eq_refl) as [H1 H2].
  split; [done|]. split.
  - rewrite H1. destruct (realtimeChannelRef _); simpl; lia.
  - simpl in H2. lia.
Qed.

(** A second teardown does nothing: no channel is removed twice. *)
Theorem teardownRealtime_twice (st : State) :
  teardownRealtime (teardownRealtime st).1 = ((teardownRealtime st).1, [])
  /\ realtimeChannelRef (teardownRealtime st).1 = None.
Proof.
  unfold teardownRealtime. destruct st as [? ? ? ? ? ? ? ? ref open].
  by destruct ref.
Qed.

(** Whatever happens, [user] is the user of [session]: the two are set
    together, so the bookmark screen is shown exactly when the connecting
    is over and a session is there. *)
Theorem user_is_the_user_of_the_session (actions : list Action) :
  user_of_session (run_all actions initial).1
  /\ (screen (run_all actions initial).1 = BookmarkScreen
      <-> loading (run_all actions initial).1 = false
          /\ is_Some (session (run_all actions initial).1)).
Proof.
  assert (user_of_session (run_all actions initial).1) as Hinv.
  { apply run_all_invariant; [|done].
    intros a st. unfold user_of_session.
    action_cases a st; try done; by simplify_eq. }
  split; [done|]. unfold screen, user_of_session in *.
  destruct (loading _); [split; [done|by intros [? _]]|].
  rewrite Hinv. destruct (session _); simpl.
  - split; [by eauto|done].
  - split; [done|]. by intros [_ [? ?]].
Qed.

Lemma user_is_the_user_of_the_session_witness :
  screen (run_all [Init true (Some (mkSession Sample.alice))] initial).1
  = BookmarkScreen.
Proof.
  destruct (user_is_the_user_of_the_session [Init true (Some (mkSession Sample.alice))])
    as [_ Hscreen].
  apply Hscreen. split; [reflexivity|by eexists].
Defined.

(** Only the answer of a load, a feed event and the transition to absent
    write the list. Typing, sign-in, sign-out, create and delete, with
    their answers, leave it as it is: nothing is put in or taken out
    ahead of the feed. *)
Theorem commands_leave_the_list (a : Action) (st : State) :
  writes_list a = false ->
  bookmarks (run a st).1 = bookmarks st
  /\ count_ops is_list_write (run a st).2 = 0%nat.
Proof.
  intros Hw. action_cases a st; try discriminate Hw; done.
Qed.

Lemma commands_leave_the_list_witness :
  bookmarks (run (DeleteBookmark (lit "1")) Sample.signed_in).1
    = bookmarks Sample.signed_in
  /\ count_ops is_list_write (run (DeleteBookmark (lit "1")) Sample.signed_in).2
     = 0%nat.
Proof.
  apply (commands_leave_the_list (DeleteBookmark (lit "1")) Sample.signed_in).
  reflexivity.
Defined.

(** [init] of a mounted component ends the connecting, from whatever
    state and whatever follows; and once the connecting is over no action
    brings the connecting screen back. *)
Theorem connecting_screen_never_returns (actions : list Action) (st : State) :
  (forall s,
     loading (run (Init true s) st).1 = false
     /\ loading (run_all (Init true s :: actions) st).1 = false
     /\ screen (run_all (Init true s :: actions) st).1 <> Connecting)
  /\ (loading st = false ->
      loading (run_all actions st).1 = false
      /\ screen (run_all actions st).1 <> Connecting).
Proof.
  assert (forall st0, loading st0 = false ->
            loading (run_all actions st0).1 = false
            /\ screen (run_all actions st0).1 <> Connecting) as Hstays.
  { intros st0 Hst0.
    assert (loading (run_all actions st0).1 = false) as Hinv.
    { revert Hst0. apply (run_all_invariant (fun s => loading s = false)).
      clear. intros a st Hst. action_cases a st; done. }
    split; [done|]. unfold screen. rewrite Hinv. repeat case_match; done. }
  assert (forall s, loading (run (Init true s) st).1 = false) as Hinit.
  { intros s. simpl. unfold init_session. by destruct s. }
  split; [|apply Hstays].
  intros s. split; [apply Hinit|].
  change (run_all (Init true s :: actions)) with (run (Init true s) >> run_all actions).
  rewrite seq_state. apply Hstays, Hinit.
Qed.

Lemma connecting_screen_never_returns_witness :
  loading (run_all [SignOut; AuthStateChange None 0%nat; SignIn] Sample.signed_in).1
  = false.
Proof.
  destruct (connecting_screen_never_returns
              [SignOut; AuthStateChange None 0%nat; SignIn] Sample.signed_in)
    as [_ Hstays].
  apply Hstays. reflexivity.
Defined.

(** Whatever happens, the message that is shown is none or one of the
    five the component has. *)
Theorem shown_message_is_one_of_five (actions : list Action) :
  error (run_all actions initial).1 ∈ None :: (Some <$> messages).
Proof.
  apply (run_all_invariant (fun s => error s ∈ None :: (Some <$> messages)));
    [|by left].
  intros a st Hst. action_cases a st; try done; by_compute.
Qed.

(** ** Sign-in, sign-out and what arrives late *)

(** The sign-out command and the transition it causes: the command
    removes the channel the reference holds and then asks the gateway to
    sign out; the listener then has no channel to remove and clears the
    list. At the end nobody is signed in, the list and the reference are
    empty, no message is shown, and no channel is open when the referenced
    one was the only one. *)
Theorem sign_out_round (st : State) (c : Channel) :
  let after := ((handleSignOut >> onAuthStateChange None c) st).1 in
  ((handleSignOut >> onAuthStateChange None c) st).2
  = match realtimeChannelRef st with
    | Some ch => [OpRemoveChannel ch; OpSignOut; OpSetBookmarks []]
    | None => [OpSignOut; OpSetBookmarks []]
    end
  /\ session after = None /\ user after = None
  /\ bookmarks after = [] /\ realtimeChannelRef after = None
  /\ error after = None
  /\ (one_feed st -> open_channels after = []).
Proof.
  unfold one_feed. destruct st as [sess usr bms ttl u ld sv er ref open].
  destruct ref as [ch|]; open_steps; repeat split; try done; intros ->; simpl.
  rewrite filter_cons, filter_nil. by rewrite decide_False by (intros H; by apply H).
Qed.

Lemma sign_out_round_witness :
  open_channels ((handleSignOut >> onAuthStateChange None 0%nat) Sample.signed_in).1
  = [].
Proof.
  destruct (sign_out_round Sample.signed_in 0%nat) as (_ & _ & _ & _ & _ & _ & H).
  apply H. reflexivity.
Defined.

(** The transition to a session: the listener sets session and user,
    clears the message, asks for the snapshot, removes the channel the
    reference holds, if any, and only then subscribes the new one, which
    the reference holds afterwards. The list is not touched: what was shown
    stays until the answer of the load arrives. *)
Theorem transition_to_present (st : State) (s : Session) (c : Channel) :
  let after := (onAuthStateChange (Some s) c st).1 in
  (onAuthStateChange (Some s) c st).2
  = OpSelect
    :: match realtimeChannelRef st with
       | Some old => [OpRemoveChannel old]
       | None => []
       end
    ++ [OpSubscribe c]
  /\ session after = Some s /\ user after = Some (session_user s)
  /\ error after = None
  /\ bookmarks after = bookmarks st
  /\ realtimeChannelRef after = Some c
  /\ (one_feed st -> open_channels after = [c]).
Proof.
  unfold one_feed. destruct st as [sess usr bms ttl u ld sv er ref open].
  destruct ref as [ch|]; open_steps; repeat split; try done; intros ->; simpl;
    [|done].
  rewrite filter_cons, filter_nil. by rewrite decide_False by (intros H; by apply H).
Qed.

Lemma transition_to_present_witness :
  open_channels (onAuthStateChange (Some (mkSession Sample.alice)) 8%nat Sample.signed_in).1
  = [8%nat].
Proof.
  destruct (transition_to_present Sample.signed_in (mkSession Sample.alice) 8%nat)
    as (_ & _ & _ & _ & _ & _ & H).
  apply H. reflexivity.
Defined.

(** What arrives late is not checked against the session. After a
    transition to absent, the successful answer of a load that was under
    way fills the list again, and the rest of [init] subscribes a channel,
    though no user is signed in. *)
Theorem late_answers_ignore_the_session (st : State) (r : SelectResponse) (c c' : Channel) :
  select_error r = None ->
  let gone := (onAuthStateChange None c st).1 in
  user gone = None
  /\ bookmarks gone = []
  /\ user (loadBookmarks_response r gone).1 = None
  /\ bookmarks (loadBookmarks_response r gone).1 = default [] (data r)
  /\ user (init_loaded r c' gone).1 = None
  /\ realtimeChannelRef (init_loaded r c' gone).1 = Some c'
  /\ c' ∈ open_channels (init_loaded r c' gone).1.
Proof.
  intros Hr. destruct st as [sess usr bms ttl u ld sv er ref open].
  destruct r as [d e]. simpl in Hr. subst e.
  destruct ref as [ch|]; open_steps; repeat split; try done; by left.
Qed.

Lemma late_answers_ignore_the_session_witness :
  let gone := (onAuthStateChange None 0%nat Sample.signed_in).1 in
  user (loadBookmarks_response (mkSelectResponse (Some [Sample.first]) None) gone).1
  = None
  /\ bookmarks (loadBookmarks_response (mkSelectResponse (Some [Sample.first]) None) gone).1
     = [Sample.first].
Proof.
  intros gone.
  destruct (late_answers_ignore_the_session Sample.signed_in
              (mkSelectResponse (Some [Sample.first]) None) 0%nat 1%nat eq_refl)
    as (_ & _ & Hu & Hb & _).
  by split.
Defined.

(** ** Create and delete on the bookmark screen *)

(** Where the form is shown, a submit is never dropped: either a field is
    blank, and the validation message is set and nothing is sent, or
    exactly one insert request is sent, the saving flag is raised and the
    message is cleared. *)
Theorem submit_on_the_bookmark_screen (st : State) :
  screen st = BookmarkScreen ->
  ((handleAddBookmark_request st).2 = []
   /\ error (handleAddBookmark_request st).1
      = Some (lit "Please provide both a title and URL")
   /\ (trim (title st) = [] \/ trim (url st) = []))
  \/ ((exists sent_title sent_url user_id,
         (handleAddBookmark_request st).2 = [OpInsert sent_title sent_url user_id])
      /\ saving (handleAddBookmark_request st).1 = true
      /\ error (handleAddBookmark_request st).1 = None
      /\ trim (title st) <> [] /\ trim (url st) <> []).
Proof.
  unfold screen, handleAddBookmark_request. intros Hscreen.
  destruct (loading st); [done|].
  destruct (session st); [|done]. destruct (user st) as [usr|]; [|done].
  destruct (trim (url st)) as [|c1 r1] eqn:E1; simpl.
  - left. repeat split; try done. by right.
  - destruct (trim (title st)) as [|c2 r2] eqn:E2; simpl.
    + left. repeat split; try done. by left.
    + right. repeat split; try done. by eexists _, _, _.
Qed.

Lemma submit_on_the_bookmark_screen_witness :
  (handleAddBookmark_request Sample.signed_in).2 = []
  /\ error (handleAddBookmark_request Sample.signed_in).1
     = Some (lit "Please provide both a title and URL").
Proof.
  destruct (submit_on_the_bookmark_screen Sample.signed_in eq_refl)
    as [(Ht & He & _)|(_ & _ & _ & Hne & _)].
  - by split.
  - exfalso. by apply Hne.
Defined.

(** A delete from command to feed event: the command sends one delete
    request for the identifier and leaves the list as it is; the answer
    only sets "Failed to delete bookmark" when the gateway refuses; the
    record goes when the feed delivers the delete event. *)
Theorem delete_round (st : State) (i : jsstring) (err : option jsstring) :
  let after := ((handleDeleteBookmark_request i >> handleDeleteBookmark_response err) st).1 in
  ((handleDeleteBookmark_request i >> handleDeleteBookmark_response err) st).2
  = OpDelete i :: match err with Some _ => [OpConsoleError] | None => [] end
  /\ bookmarks after = bookmarks st
  /\ error after
     = match err with
       | Some _ => Some (lit "Failed to delete bookmark")
       | None => None
       end
  /\ (i ∉ ids (bookmarks (postgres_changes (DELETE i) after).1)).
Proof.
  destruct st as [sess usr bms ttl u ld sv er ref open].
  destruct err; open_steps; repeat split; try done;
    apply (on_change_delete_gone i bms).
Qed.
